(** * Unused-import removal (unusedImportsManager.ts): a shallow embedding

    The TypeScript class [UnusedImportsManager] parses the active document,
    collects the names every import statement binds, collects the
    identifiers used outside import statements, flags the imports none of
    whose names is used, and deletes one line per flagged import.

    The syntax tree comes from the TypeScript compiler API and the document
    from the editor; both are represented here as data.  Offsets are
    character offsets into the text, as in the source. *)

From Stdlib Require Import String Ascii List Arith ZArith Lia Sorted.
From stdpp Require Import base list strings gmap sets pretty.

Open Scope string_scope.
Open Scope list_scope.
Open Scope nat_scope.
Set Warnings "-register-all".

(** ** Syntax tree *)

Module Ast.

(** [ts.ImportSpecifier]: [name] ([specName] here) is the local name,
    [propertyName] the original name when the specifier is aliased
    ([propertyName as name]). *)
Record ImportSpecifier := {
  specName : string;
  propertyName : option string
}.

(** [ts.NamedImportBindings]: either [{ a, b as c }] or [* as ns]. *)
Inductive NamedImportBindings :=
| NamedImports (elements : list ImportSpecifier)
| NamespaceImport (name : string).

(** [ts.ImportClause]: optional default name ([name], [clauseName] here),
    optional named bindings. *)
Record ImportClause := {
  clauseName : option string;
  namedBindings : option NamedImportBindings
}.

(** The node kinds the manager tells apart; every other kind is a
    [SyntaxNode] with its children in [ts.forEachChild] order.  An import
    declaration carries [pos] (what [getFullStart] returns) and [end]. *)
Inductive Node :=
| ImportDeclaration (pos end_ : nat) (importClause : option ImportClause)
                    (moduleSpecifier : string)
| Identifier (text : string)
| JsxOpeningElement (tagName : Node) (rest : list Node)
| JsxSelfClosingElement (tagName : Node) (rest : list Node)
| SyntaxNode (kind : string) (children : list Node).

Definition isImportDeclaration (node : Node) : bool :=
  match node with ImportDeclaration _ _ _ _ => true | _ => false end.

Definition isIdentifier (node : Node) : bool :=
  match node with Identifier _ => true | _ => false end.

(** The children of an import declaration, as nodes. *)
Definition specifierNode (e : ImportSpecifier) : Node :=
  SyntaxNode "ImportSpecifier"
    (match propertyName e with Some p => [Identifier p] | None => [] end
     ++ [Identifier (specName e)]).

Definition bindingsNode (b : NamedImportBindings) : Node :=
  match b with
  | NamedImports elements => SyntaxNode "NamedImports" (map specifierNode elements)
  | NamespaceImport name => SyntaxNode "NamespaceImport" [Identifier name]
  end.

Definition clauseNode (c : ImportClause) : Node :=
  SyntaxNode "ImportClause"
    (match clauseName c with Some n => [Identifier n] | None => [] end
     ++ match namedBindings c with Some b => [bindingsNode b] | None => [] end).

(** [ts.forEachChild]: the children of a node, in order. *)
Definition forEachChild (node : Node) : list Node :=
  match node with
  | ImportDeclaration _ _ importClause moduleSpecifier =>
      match importClause with Some c => [clauseNode c] | None => [] end
      ++ [SyntaxNode "StringLiteral" []]
  | Identifier _ => []
  | JsxOpeningElement tagName rest => tagName :: rest
  | JsxSelfClosingElement tagName rest => tagName :: rest
  | SyntaxNode _ children => children
  end.

End Ast.
Import Ast.

(** ** The manager *)

(** [interface UnusedImport]. *)
Record UnusedImport := {
  start : nat;
  end_ : nat;
  importName : string;
  line : nat
}.

(** One element of the array [collectImports] builds; its [start] and
    [end] are [infoStart] and [infoEnd] here. *)
Record ImportInfo := {
  node : Node;
  importedNames : list string;
  infoStart : nat;
  infoEnd : nat
}.

(** The names one import clause pushes onto [importedNames], in push
    order: the default name, then per named specifier its local name
    followed by its original name when aliased, or the namespace name. *)
Definition specifierNames (element : ImportSpecifier) : list string :=
  specName element ::
  match propertyName element with Some p => [p] | None => [] end.

Definition clauseNames (importClause : option ImportClause) : list string :=
  match importClause with
  | Some c =>
      match clauseName c with Some n => [n] | None => [] end
      ++ match namedBindings c with
         | Some (NamedImports elements) => flat_map specifierNames elements
         | Some (NamespaceImport name) => [name]
         | None => []
         end
  | None => []
  end.

(** [visitImports]: pre-order walk pushing one record per import
    declaration.  The array [imports] is threaded through.  The children of
    an import declaration (its clause and module specifier) hold no import
    declaration, so the walk below them pushes nothing. *)
Fixpoint visitImports (n : Node) (imports : list ImportInfo) : list ImportInfo :=
  match n with
  | ImportDeclaration pos e importClause _ =>
      imports ++ [ {| node := n; importedNames := clauseNames importClause;
                      infoStart := pos; infoEnd := e |} ]
  | Identifier _ => imports
  | JsxOpeningElement tagName rest =>
      fold_left (fun acc c => visitImports c acc) rest (visitImports tagName imports)
  | JsxSelfClosingElement tagName rest =>
      fold_left (fun acc c => visitImports c acc) rest (visitImports tagName imports)
  | SyntaxNode _ children =>
      fold_left (fun acc c => visitImports c acc) children imports
  end.

Definition collectImports (sourceFile : Node) : list ImportInfo :=
  visitImports sourceFile [].

(** [visitNode]: the walk of [collectUsedIdentifiers], with the set
    threaded through.  Import declarations return at once. *)
Fixpoint visitNode (n : Node) (usedIdentifiers : gset string) : gset string :=
  match n with
  | ImportDeclaration _ _ _ _ => usedIdentifiers
  | Identifier text => {[ text ]} ∪ usedIdentifiers
  | JsxOpeningElement tagName rest =>
      let used1 := match tagName with
                   | Identifier t => {[ t ]} ∪ usedIdentifiers
                   | _ => usedIdentifiers
                   end in
      fold_left (fun acc c => visitNode c acc) rest (visitNode tagName used1)
  | JsxSelfClosingElement tagName rest =>
      let used1 := match tagName with
                   | Identifier t => {[ t ]} ∪ usedIdentifiers
                   | _ => usedIdentifiers
                   end in
      fold_left (fun acc c => visitNode c acc) rest (visitNode tagName used1)
  | SyntaxNode _ children =>
      fold_left (fun acc c => visitNode c acc) children usedIdentifiers
  end.

Definition collectUsedIdentifiers (sourceFile : Node) : gset string :=
  visitNode sourceFile ∅.

(** [importedNames.some(name => usedIdentifiers.has(name))]. *)
Definition isUsed (importedNames : list string) (usedIdentifiers : gset string) : bool :=
  existsb (fun name => bool_decide (name ∈ usedIdentifiers)) importedNames.

(** JavaScript [s.split(sep)] for a one-character separator. *)
Fixpoint split (sep : ascii) (s : string) : list string :=
  match s with
  | EmptyString => [EmptyString]
  | String c rest =>
      if Ascii.eqb c sep then EmptyString :: split sep rest
      else match split sep rest with
           | piece :: pieces => String c piece :: pieces
           | [] => [String c EmptyString]
           end
  end.

Definition LF : ascii := ascii_of_nat 10.

(** [text.substring(0, start).split('\n').length]. *)
Definition lineOf (text : string) (start : nat) : nat :=
  List.length (split LF (substring 0 start text)).

(** The record the loop pushes for a flagged import. *)
Definition toUnusedImport (text : string) (importInfo : ImportInfo) : UnusedImport :=
  {| start := infoStart importInfo;
     end_ := infoEnd importInfo;
     importName := String.concat ", " (importedNames importInfo);
     line := lineOf text (infoStart importInfo) |}.

(** [filterUnusedImports]: the [for] loop over [imports], with the array
    [unusedImports] threaded through. *)
Definition filterUnusedImports (imports : list ImportInfo)
    (usedIdentifiers : gset string) (text : string) : list UnusedImport :=
  fold_left
    (fun unusedImports importInfo =>
       if List.length (importedNames importInfo) =? 0 then unusedImports
       else if negb (isUsed (importedNames importInfo) usedIdentifiers)
            then unusedImports ++ [toUnusedImport text importInfo]
            else unusedImports)
    imports [].

Definition findUnusedImports (sourceFile : Node) (text : string) : list UnusedImport :=
  let imports := collectImports sourceFile in
  let usedIdentifiers := collectUsedIdentifiers sourceFile in
  filterUnusedImports imports usedIdentifiers text.

(** ** The editor's document *)

Record TextDocument := {
  fileName : string;
  languageId : string;
  getText : string
}.

Record Position := { posLine : nat; character : nat }.
Record Range := { rangeStart : Position; rangeEnd : Position }.

(** Modelled from the spec: the host editor's document API
    ([positionAt], [lineAt(..).rangeIncludingLineBreak], [offsetAt]) is not
    part of the repository.  Lines are the pieces between line feeds; a
    position is a zero-based line and a column within it. *)
Definition positionAt (document : TextDocument) (offset : nat) : Position :=
  let pieces := split LF (substring 0 offset (getText document)) in
  {| posLine := List.length pieces - 1;
     character := String.length (List.last pieces EmptyString) |}.

Definition lineCount (document : TextDocument) : nat :=
  List.length (split LF (getText document)).

Definition lineText (document : TextDocument) (l : nat) : string :=
  nth l (split LF (getText document)) EmptyString.

(** Modelled from the spec: the deletion range of a line is the entire
    line including its trailing line terminator; the last line has none. *)
Definition rangeIncludingLineBreak (document : TextDocument) (l : nat) : Range :=
  if S l <? lineCount document
  then {| rangeStart := {| posLine := l; character := 0 |};
          rangeEnd := {| posLine := S l; character := 0 |} |}
  else {| rangeStart := {| posLine := l; character := 0 |};
          rangeEnd := {| posLine := l;
                         character := String.length (lineText document l) |} |}.

Definition offsetAt (document : TextDocument) (p : Position) : nat :=
  let pieces := split LF (getText document) in
  list_sum (map (fun piece => S (String.length piece)) (take (posLine p) pieces))
  + Nat.min (character p) (String.length (lineText document (posLine p))).

(** Removing the characters at offsets [from, to) of a text. *)
Definition deleteOffsets (text : string) (from to : nat) : string :=
  substring 0 from text +:+ substring to (String.length text - to) text.

(** Modelled from the spec: the external apply step takes the deletions in
    batch order, each range resolved in the coordinates of the document the
    batch was planned on, and applies them one after the other to the
    shrinking text. *)
Definition applyEdit (document : TextDocument) (edit : list Range) : TextDocument :=
  {| fileName := fileName document;
     languageId := languageId document;
     getText :=
       fold_left
         (fun text range =>
            deleteOffsets text (offsetAt document (rangeStart range))
                               (offsetAt document (rangeEnd range)))
         edit (getText document) |}.

(** [Array.prototype.sort] with a comparator: a stable sort. *)
Fixpoint insertSorted {A} (compare : A → A → Z) (x : A) (l : list A) : list A :=
  match l with
  | [] => [x]
  | y :: l' => if (compare x y <=? 0)%Z then x :: l else y :: insertSorted compare x l'
  end.

Definition sort {A} (compare : A → A → Z) (l : list A) : list A :=
  foldr (insertSorted compare) [] l.

(** [(a, b) => b.start - a.start]. *)
Definition byStartDescending (a b : UnusedImport) : Z :=
  (Z.of_nat (start b) - Z.of_nat (start a))%Z.

(** [applyRemovalEdits], first half: the edit batch, one full-line deletion
    per finding, findings sorted by descending start. *)
Definition removalEdits (document : TextDocument)
    (unusedImports : list UnusedImport) : list Range :=
  map (fun unusedImport =>
         let startPos := positionAt document (start unusedImport) in
         rangeIncludingLineBreak document (posLine startPos))
      (sort byStartDescending unusedImports).

(** [applyRemovalEdits]: plan the batch and hand it to the editor. *)
Definition applyRemovalEdits (document : TextDocument)
    (unusedImports : list UnusedImport) : TextDocument :=
  applyEdit document (removalEdits document unusedImports).

(** ** The command *)

Inductive ScriptKind := JS | JSX | TS | TSX.

(** JavaScript [s.includes(sub)]. *)
Definition includes (s sub : string) : bool :=
  match String.index 0 sub s with Some _ => true | None => false end.

Definition isSupportedFile (languageId : string) : bool :=
  bool_decide (languageId ∈
    ["javascript"; "typescript"; "javascriptreact"; "typescriptreact"]).

Definition getScriptKind (languageId : string) : ScriptKind :=
  if includes languageId "jsx" || includes languageId "react"
  then (if includes languageId "typescript" then TSX else JSX)
  else (if includes languageId "typescript" then TS else JS).

(** What the user is shown. *)
Inductive Notification :=
| showErrorMessage (message : string)
| showInformationMessage (message : string).

(** What one run of the command leaves behind: the messages shown, the
    edit batches handed to the editor, and the document afterwards. *)
Record Outcome := {
  shown : list Notification;
  applied : list (list Range);
  documentAfter : option TextDocument
}.

Section Command.

(** [ts.createSourceFile(fileName, text, ScriptTarget.Latest, true,
    scriptKind)]: the parser is the TypeScript library's.  [inr message]
    stands for an exception with that message. *)
Variable tsCreateSourceFile : string → string → ScriptKind → Node + string.

Definition createSourceFile (document : TextDocument) (text : string) : Node + string :=
  let scriptKind := getScriptKind (languageId document) in
  tsCreateSourceFile (fileName document) text scriptKind.

Definition removeUnusedImportsHandler (activeTextEditor : option TextDocument) : Outcome :=
  match activeTextEditor with
  | None =>
      {| shown := [showErrorMessage "No active editor found"];
         applied := []; documentAfter := None |}
  | Some document =>
      if negb (isSupportedFile (languageId document)) then
        {| shown := [showErrorMessage
                       "This command only works with JavaScript/TypeScript files"];
           applied := []; documentAfter := Some document |}
      else
        let text := getText document in
        match createSourceFile document text with
        | inr message =>
            {| shown := [showErrorMessage ("Error processing file: " +:+ message)];
               applied := []; documentAfter := Some document |}
        | inl sourceFile =>
            let unusedImports := findUnusedImports sourceFile text in
            if List.length unusedImports =? 0 then
              {| shown := [showInformationMessage "No unused imports found"];
                 applied := []; documentAfter := Some document |}
            else
              {| shown := [showInformationMessage
                             ("Removed " +:+ pretty (List.length unusedImports)
                              +:+ " unused import(s)")];
                 applied := [removalEdits document unusedImports];
                 documentAfter := Some (applyRemovalEdits document unusedImports) |}
        end
  end.

End Command.

(** What [collectImports] records for an import declaration. *)
Definition importInfoOf (n : Node) : ImportInfo :=
  match n with
  | ImportDeclaration pos e importClause _ =>
      {| node := n; importedNames := clauseNames importClause;
         infoStart := pos; infoEnd := e |}
  | _ => {| node := n; importedNames := []; infoStart := 0; infoEnd := 0 |}
  end.

(** ** Sample documents *)

Definition newline : string := String LF EmptyString.

(** Two imports, the first used, the second not. *)
Definition twoImportsText : string :=
  "import A from 'a';" +:+ newline +:+
  "import B from 'b';" +:+ newline +:+
  "A;" +:+ newline.

Definition defaultImport (name : string) : option ImportClause :=
  Some {| clauseName := Some name; namedBindings := None |}.

(** The tree the parser builds for [twoImportsText].  A statement's [pos]
    is where the previous token ended, so the second import starts at
    offset 18, on the line feed that ends the first line. *)
Definition twoImportsTree : Node :=
  SyntaxNode "SourceFile"
    [ ImportDeclaration 0 18 (defaultImport "A") "a";
      ImportDeclaration 18 37 (defaultImport "B") "b";
      SyntaxNode "ExpressionStatement" [Identifier "A"];
      SyntaxNode "EndOfFileToken" [] ].

(** What is left of [twoImportsText] after one run, and its tree. *)
Definition afterFirstRunText : string :=
  "import B from 'b';" +:+ newline +:+
  "A;" +:+ newline.

Definition afterFirstRunTree : Node :=
  SyntaxNode "SourceFile"
    [ ImportDeclaration 0 18 (defaultImport "B") "b";
      SyntaxNode "ExpressionStatement" [Identifier "A"];
      SyntaxNode "EndOfFileToken" [] ].

(** The parser restricted to the two sample texts. *)
Definition sampleParser (fileName text : string) (kind : ScriptKind) : Node + string :=
  if String.eqb text twoImportsText then inl twoImportsTree
  else if String.eqb text afterFirstRunText then inl afterFirstRunTree
  else inr "not a sample text".

Definition sampleDocument (text : string) : TextDocument :=
  {| fileName := "sample.ts"; languageId := "typescript"; getText := text |}.

(** [import { useState as st } from 'm';] alone, and followed by a
    reference to the original name. *)
Definition aliasClause : ImportClause :=
  {| clauseName := None;
     namedBindings :=
       Some (NamedImports [ {| specName := "st"; propertyName := Some "useState" |} ]) |}.

Definition aliasText : string := "import { useState as st } from 'm';" +:+ newline.

Definition aliasTree : Node :=
  SyntaxNode "SourceFile"
    [ ImportDeclaration 0 35 (Some aliasClause) "m";
      SyntaxNode "EndOfFileToken" [] ].

Definition aliasUsedText : string := aliasText +:+ "useState;" +:+ newline.

Definition aliasUsedTree : Node :=
  SyntaxNode "SourceFile"
    [ ImportDeclaration 0 35 (Some aliasClause) "m";
      SyntaxNode "ExpressionStatement" [Identifier "useState"];
      SyntaxNode "EndOfFileToken" [] ].

(** [import * as fs from 'm';] followed by [fs.readFile;]. *)
Definition namespaceClause (name : string) : ImportClause :=
  {| clauseName := None; namedBindings := Some (NamespaceImport name) |}.

Definition namespaceText : string :=
  "import * as fs from 'm';" +:+ newline +:+ "fs.readFile;" +:+ newline.

Definition namespaceTree : Node :=
  SyntaxNode "SourceFile"
    [ ImportDeclaration 0 24 (Some (namespaceClause "fs")) "m";
      SyntaxNode "ExpressionStatement"
        [ SyntaxNode "PropertyAccessExpression"
            [Identifier "fs"; Identifier "readFile"] ];
      SyntaxNode "EndOfFileToken" [] ].

(** [import Widget from 'm';] followed by [<Widget />;]. *)
Definition widgetText : string :=
  "import Widget from 'm';" +:+ newline +:+ "<Widget />;" +:+ newline.

Definition widgetTag : Node :=
  JsxSelfClosingElement (Identifier "Widget") [SyntaxNode "JsxAttributes" []].

Definition widgetTree : Node :=
  SyntaxNode "SourceFile"
    [ ImportDeclaration 0 23 (defaultImport "Widget") "m";
      SyntaxNode "ExpressionStatement" [widgetTag];
      SyntaxNode "EndOfFileToken" [] ].

(** The scenario of the specification: a default import nobody uses, a
    named import of which one name is used, and a side-effect import. *)
Definition scenarioReact : ImportInfo :=
  importInfoOf (ImportDeclaration 0 26 (defaultImport "React") "react").

Definition scenarioHooks : ImportInfo :=
  importInfoOf (ImportDeclaration 26 71
    (Some {| clauseName := None;
             namedBindings := Some (NamedImports
               [ {| specName := "useState"; propertyName := None |};
                 {| specName := "useEffect"; propertyName := None |} ]) |}) "react").

Definition scenarioStyles : ImportInfo :=
  importInfoOf (ImportDeclaration 71 94 None "./styles.css").

Definition scenarioImports : list ImportInfo :=
  [scenarioReact; scenarioHooks; scenarioStyles].

Definition scenarioUsed : gset string := {[ "App"; "useState" ]}.

(** An import statement spread over three lines. *)
Definition multiLineText : string :=
  "import {" +:+ newline +:+ "  a" +:+ newline +:+ "} from 'm';" +:+ newline.

Definition multiLineTree : Node :=
  SyntaxNode "SourceFile"
    [ ImportDeclaration 0 24
        (Some {| clauseName := None;
                 namedBindings := Some (NamedImports
                   [ {| specName := "a"; propertyName := None |} ]) |}) "m";
      SyntaxNode "EndOfFileToken" [] ].

Definition scenarioText : string :=
  "import React from 'react';" +:+ newline +:+
  "import { useState, useEffect } from 'react';" +:+ newline +:+
  "import './styles.css';" +:+ newline +:+
  "function App() { return useState; }" +:+ newline.

Definition scenarioTree : Node :=
  SyntaxNode "SourceFile"
    [ node scenarioReact; node scenarioHooks; node scenarioStyles;
      SyntaxNode "FunctionDeclaration"
        [ Identifier "App";
          SyntaxNode "Block" [ SyntaxNode "ReturnStatement" [Identifier "useState"] ] ];
      SyntaxNode "EndOfFileToken" [] ].

(** ** Notions the statements below are phrased in *)

(** The node reached from [n] by following child indices [path], as long as
    no node on the way (the end included) is an import declaration: the
    nodes [visitNode] gets to. *)
Fixpoint visitedAt (path : list nat) (n : Node) : option Node :=
  if isImportDeclaration n then None
  else match path with
       | [] => Some n
       | k :: path' =>
           match forEachChild n !! k with
           | Some c => visitedAt path' c
           | None => None
           end
       end.

(** The node reached from [n] by following child indices, with no
    restriction. *)
Fixpoint nodeAt (path : list nat) (n : Node) : option Node :=
  match path with
  | [] => Some n
  | k :: path' =>
      match forEachChild n !! k with
      | Some c => nodeAt path' c
      | None => None
      end
  end.

(** The import at index [k] of [imports] contributes its finding to the
    resolver's output, in place. *)
Definition flaggedAt (imports : list ImportInfo) (usedIdentifiers : gset string)
    (text : string) (k : nat) : Prop :=
  ∃ importInfo, imports !! k = Some importInfo ∧
    filterUnusedImports imports usedIdentifiers text =
      filterUnusedImports (take k imports) usedIdentifiers text
      ++ toUnusedImport text importInfo
         :: filterUnusedImports (drop (S k) imports) usedIdentifiers text.

(** The import at index [k] of [imports] contributes nothing to the
    resolver's output. *)
Definition retainedAt (imports : list ImportInfo) (usedIdentifiers : gset string)
    (text : string) (k : nat) : Prop :=
  ∃ importInfo, imports !! k = Some importInfo ∧
    filterUnusedImports imports usedIdentifiers text =
      filterUnusedImports (take k imports) usedIdentifiers text
      ++ filterUnusedImports (drop (S k) imports) usedIdentifiers text.

(** The display names as the specification words them: the names in
    declaration order, one name per specifier (its local name). *)
Definition declaredNames (importClause : option ImportClause) : list string :=
  match importClause with
  | Some c =>
      match clauseName c with Some n => [n] | None => [] end
      ++ match namedBindings c with
         | Some (NamedImports elements) => map specName elements
         | Some (NamespaceImport name) => [name]
         | None => []
         end
  | None => []
  end.

(** The number of occurrences of a character in a string. *)
Fixpoint occurrences (c : ascii) (s : string) : nat :=
  match s with
  | EmptyString => 0
  | String c' rest => (if Ascii.eqb c' c then 1 else 0) + occurrences c rest
  end.

(** A parser that answers with one fixed tree. *)
Definition fixedParser (sourceFile : Node) (fileName text : string)
    (kind : ScriptKind) : Node + string :=
  inl sourceFile.

(** A file without imports. *)
Definition noImportText : string := "A;" +:+ newline.

Definition noImportTree : Node :=
  SyntaxNode "SourceFile"
    [ SyntaxNode "ExpressionStatement" [Identifier "A"];
      SyntaxNode "EndOfFileToken" [] ].


(** The text of some lines, each followed by a line feed. *)
Fixpoint prefixText (pieces : list string) : string :=
  match pieces with
  | [] => EmptyString
  | piece :: pieces' => piece +:+ newline +:+ prefixText pieces'
  end.

(** The lines on which the findings of a batch start, in batch order
    ([startPos.line] in [applyRemovalEdits]). *)
Definition startLines (document : TextDocument)
    (unusedImports : list UnusedImport) : list nat :=
  map (fun unusedImport => posLine (positionAt document (start unusedImport)))
      (sort byStartDescending unusedImports).

(** Whether a statement is an import declaration that the resolver flags
    against the usage set [used]. *)
Definition flaggedStatement (used : gset string) (s : Node) : bool :=
  isImportDeclaration s
  && negb (List.length (importedNames (importInfoOf s)) =? 0)
  && negb (isUsed (importedNames (importInfoOf s)) used).

(** ** Tree induction *)

(** Induction over the tree with the hypothesis for every child. *)
Lemma Node_rect_children (P : Node → Prop) :
  (∀ pos e c m, P (ImportDeclaration pos e c m)) →
  (∀ text, P (Identifier text)) →
  (∀ tagName rest, P tagName → Forall P rest → P (JsxOpeningElement tagName rest)) →
  (∀ tagName rest, P tagName → Forall P rest → P (JsxSelfClosingElement tagName rest)) →
  (∀ kind children, Forall P children → P (SyntaxNode kind children)) →
  ∀ node, P node.
Proof.
  intros Himp Hid Hopen Hself Hnode.
  fix IH 1. intros [pos e c m | text | tagName rest | tagName rest | kind children].
  - apply Himp.
  - apply Hid.
  - apply Hopen; [apply IH |].
    induction rest as [| r rest IHrest]; constructor; [apply IH | exact IHrest].
  - apply Hself; [apply IH |].
    induction rest as [| r rest IHrest]; constructor; [apply IH | exact IHrest].
  - apply Hnode.
    induction children as [| r rest IHrest]; constructor; [apply IH | exact IHrest].
Qed.


(** ** The extractor *)

Lemma visitImports_fold (cs : list Node) (imports : list ImportInfo) :
  Forall (fun c => ∀ acc, visitImports c acc = acc ++ visitImports c []) cs →
  fold_left (fun acc c => visitImports c acc) cs imports =
  imports ++ flat_map (fun c => visitImports c []) cs.
Proof.
  intros Hcs. revert imports.
  induction Hcs as [| c cs Hc _ IH]; intros imports; simpl.
  - by rewrite app_nil_r.
  - rewrite IH, Hc. by rewrite <- app_assoc.
Qed.

Lemma visitImports_acc (n : Node) :
  ∀ imports, visitImports n imports = imports ++ visitImports n [].
Proof.
  induction n as [pos e c m | text | tagName rest IHt IHr | tagName rest IHt IHr
                 | kind children IHc] using Node_rect_children; intros imports; simpl.
  - done.
  - by rewrite app_nil_r.
  - rewrite !(visitImports_fold rest) by done. rewrite (IHt imports).
    by rewrite app_assoc.
  - rewrite !(visitImports_fold rest) by done. rewrite (IHt imports).
    by rewrite app_assoc.
  - by rewrite !(visitImports_fold children) by done.
Qed.

Lemma visitImports_children (cs : list Node) (imports : list ImportInfo) :
  fold_left (fun acc c => visitImports c acc) cs imports =
  imports ++ flat_map collectImports cs.
Proof.
  apply visitImports_fold, Forall_forall. intros c _. apply visitImports_acc.
Qed.

(** Every record of [collectImports] is the record of an import declaration
    of the tree: its names are the clause's names, its span the node's. *)
Lemma collectImports_sound (sourceFile : Node) (importInfo : ImportInfo) :
  importInfo ∈ collectImports sourceFile →
  ∃ pos e c m, node importInfo = ImportDeclaration pos e c m ∧
               importInfo = importInfoOf (ImportDeclaration pos e c m).
Proof.
  unfold collectImports.
  induction sourceFile as [pos e c m | text | tagName rest IHt IHr | tagName rest IHt IHr
                 | kind children IHc] using Node_rect_children; simpl.
  - intros ->%list_elem_of_singleton. by exists pos, e, c, m.
  - by intros ?%elem_of_nil.
  - rewrite visitImports_children. intros [H | H]%elem_of_app; [by apply IHt |].
    apply list_elem_of_In, in_flat_map in H as (c & Hc%list_elem_of_In & Hi%list_elem_of_In).
    rewrite Forall_forall in IHr. by apply (IHr c).
  - rewrite visitImports_children. intros [H | H]%elem_of_app; [by apply IHt |].
    apply list_elem_of_In, in_flat_map in H as (c & Hc%list_elem_of_In & Hi%list_elem_of_In).
    rewrite Forall_forall in IHr. by apply (IHr c).
  - rewrite visitImports_children. simpl. intros H.
    apply list_elem_of_In, in_flat_map in H as (c & Hc%list_elem_of_In & Hi%list_elem_of_In).
    rewrite Forall_forall in IHc. by apply (IHc c).
Qed.

Lemma nodeAt_cons (k : nat) (path : list nat) (n d : Node) :
  nodeAt (k :: path) n = Some d ↔
  ∃ c, forEachChild n !! k = Some c ∧ nodeAt path c = Some d.
Proof.
  simpl. destruct (forEachChild n !! k) as [c |].
  - split; [intros Hp; by exists c | intros (c' & [= <-] & Hp); exact Hp].
  - split; [done | by intros (c' & ? & _)].
Qed.

Lemma nodeAt_Identifier (text : string) (path : list nat) (d : Node) :
  nodeAt path (Identifier text) = Some d → isImportDeclaration d = false.
Proof.
  destruct path as [| k path]; [by intros [= <-] |].
  intros (c & Hk & _)%nodeAt_cons. by destruct k.
Qed.

Lemma nodeAt_SyntaxNode (kind : string) (cs : list Node) (path : list nat) (d : Node) :
  Forall (fun c => ∀ p x, nodeAt p c = Some x → isImportDeclaration x = false) cs →
  nodeAt path (SyntaxNode kind cs) = Some d → isImportDeclaration d = false.
Proof.
  intros Hcs. destruct path as [| k path]; [by intros [= <-] |].
  intros (c & Hk & Hp)%nodeAt_cons. simpl in Hk.
  rewrite Forall_lookup in Hcs. by apply (Hcs k c Hk path).
Qed.

(** Below an import declaration there is no import declaration. *)
Lemma nodeAt_clauseNode (c : ImportClause) (path : list nat) (d : Node) :
  nodeAt path (clauseNode c) = Some d → isImportDeclaration d = false.
Proof.
  apply nodeAt_SyntaxNode, Forall_app. split.
  - destruct (clauseName c); constructor; [| constructor].
    intros p x. apply nodeAt_Identifier.
  - destruct (namedBindings c) as [[elements | name] |]; constructor; try constructor.
    + intros p x. apply nodeAt_SyntaxNode, Forall_fmap, Forall_forall.
      intros el _ p1 x1. apply nodeAt_SyntaxNode, Forall_app. split.
      * destruct (propertyName el); constructor; [| constructor].
        intros p2 x2. apply nodeAt_Identifier.
      * constructor; [| constructor]. intros p2 x2. apply nodeAt_Identifier.
    + intros p x. apply nodeAt_SyntaxNode. constructor; [| constructor].
      intros p1 x1. apply nodeAt_Identifier.
Qed.

Lemma nodeAt_below_import pos e c m (k : nat) (path : list nat) (d : Node) :
  nodeAt (k :: path) (ImportDeclaration pos e c m) = Some d →
  isImportDeclaration d = false.
Proof.
  intros (child & Hk & Hp)%nodeAt_cons. simpl in Hk.
  destruct c as [cl |]; simpl in Hk.
  - destruct k as [| [| k]]; simpl in Hk; try done.
    + injection Hk as <-. by apply nodeAt_clauseNode in Hp.
    + injection Hk as <-. by apply (nodeAt_SyntaxNode _ [] path d) in Hp.
  - destruct k as [| k]; simpl in Hk; try done.
    injection Hk as <-. by apply (nodeAt_SyntaxNode _ [] path d) in Hp.
Qed.

Lemma elem_of_flat_map_collectImports (cs : list Node) (k : nat) (c : Node)
    (importInfo : ImportInfo) :
  cs !! k = Some c → importInfo ∈ collectImports c →
  importInfo ∈ flat_map collectImports cs.
Proof.
  intros Hk Hi. apply list_elem_of_In, in_flat_map. exists c.
  split; apply list_elem_of_In; [by eapply list_elem_of_lookup_2 | done].
Qed.

(** Every import declaration of the tree has its record in
    [collectImports]. *)
Lemma collectImports_complete (sourceFile : Node) :
  ∀ path d, nodeAt path sourceFile = Some d → isImportDeclaration d = true →
            importInfoOf d ∈ collectImports sourceFile.
Proof.
  unfold collectImports.
  induction sourceFile as [pos e c m | text | tagName rest IHt IHr | tagName rest IHt IHr
                 | kind children IHc] using Node_rect_children; intros path d Hp Hd.
  - destruct path as [| k path].
    + injection Hp as <-. simpl. by left.
    + apply nodeAt_below_import in Hp. congruence.
  - apply nodeAt_Identifier in Hp. congruence.
  - destruct path as [| k path]; [injection Hp as <-; done |].
    apply nodeAt_cons in Hp as (c & Hk & Hp). simpl. rewrite visitImports_children.
    apply elem_of_app. destruct k as [| k]; simpl in Hk.
    + injection Hk as <-. left. by apply (IHt path).
    + right. apply (elem_of_flat_map_collectImports rest k c); [done |].
      rewrite Forall_lookup in IHr. by apply (IHr k c Hk path).
  - destruct path as [| k path]; [injection Hp as <-; done |].
    apply nodeAt_cons in Hp as (c & Hk & Hp). simpl. rewrite visitImports_children.
    apply elem_of_app. destruct k as [| k]; simpl in Hk.
    + injection Hk as <-. left. by apply (IHt path).
    + right. apply (elem_of_flat_map_collectImports rest k c); [done |].
      rewrite Forall_lookup in IHr. by apply (IHr k c Hk path).
  - destruct path as [| k path]; [injection Hp as <-; done |].
    apply nodeAt_cons in Hp as (c & Hk & Hp). simpl. rewrite visitImports_children.
    simpl. apply (elem_of_flat_map_collectImports children k c); [done |].
    rewrite Forall_lookup in IHc. by apply (IHc k c Hk path).
Qed.

(** ** The usage collector *)

Lemma visitedAt_cons (k : nat) (path : list nat) (n target : Node) :
  visitedAt (k :: path) n = Some target ↔
  isImportDeclaration n = false ∧
  ∃ c, forEachChild n !! k = Some c ∧ visitedAt path c = Some target.
Proof.
  simpl. destruct (isImportDeclaration n).
  { split; [done | by intros [? _]]. }
  destruct (forEachChild n !! k) as [c |].
  - split; [intros Hp; split; [done | by exists c] |].
    intros (_ & c' & [= <-] & Hp). exact Hp.
  - split; [done | by intros (_ & c' & ? & _)].
Qed.

Lemma visitNode_fold (cs : list Node) :
  Forall (fun c => ∀ used x, x ∈ visitNode c used ↔
                     x ∈ used ∨ ∃ path, visitedAt path c = Some (Identifier x)) cs →
  ∀ (used : gset string) x,
    x ∈ fold_left (fun acc c => visitNode c acc) cs used ↔
    x ∈ used ∨ ∃ k c path, cs !! k = Some c ∧ visitedAt path c = Some (Identifier x).
Proof.
  induction 1 as [| c cs Hc _ IH]; intros used x; simpl.
  - split; [by left |]. intros [? | (k & c & path & Hk & _)]; [done |].
    by rewrite lookup_nil in Hk.
  - rewrite IH, Hc. split.
    + intros [[? | [path Hp]] | (k & c' & path & Hk & Hp)].
      * by left.
      * right. by exists 0, c, path.
      * right. by exists (S k), c', path.
    + intros [? | (k & c' & path & Hk & Hp)]; [by left; left |].
      destruct k as [| k]; simpl in Hk.
      * injection Hk as ->. left. right. by exists path.
      * right. by exists k, c', path.
Qed.

(** The usage set holds the identifiers given at the start and the texts
    of the identifier nodes reached without entering an import declaration. *)
Lemma visitNode_spec (n : Node) :
  ∀ (used : gset string) x,
    x ∈ visitNode n used ↔
    x ∈ used ∨ ∃ path, visitedAt path n = Some (Identifier x).
Proof.
  induction n as [pos e c m | text | tagName rest IHt IHr | tagName rest IHt IHr
                 | kind children IHc] using Node_rect_children; intros used x.
  - simpl. split; [by left |]. intros [? | [path Hp]]; [done |].
    by destruct path.
  - simpl. rewrite elem_of_union, elem_of_singleton. split.
    + intros [-> | ?]; [right; by exists [] | by left].
    + intros [? | [path Hp]]; [by right |].
      destruct path as [| k path]; [left; simpl in Hp; congruence |].
      apply visitedAt_cons in Hp as (_ & c & Hk & _). by destruct k.
  - cbn [visitNode]. rewrite (visitNode_fold rest IHr), IHt. split.
    + intros [[Hx | [path Hp]] | (k & c & path & Hk & Hp)].
      * destruct tagName; try (by left).
        apply elem_of_union in Hx as [->%elem_of_singleton | ?]; [| by left].
        right. by exists [0].
      * right. exists (0 :: path). apply visitedAt_cons. split; [done |].
        by exists tagName.
      * right. exists (S k :: path). apply visitedAt_cons. split; [done |].
        by exists c.
    + intros [Hx | [path Hp]].
      * left. left. destruct tagName; try done. apply elem_of_union. by right.
      * destruct path as [| k path]; [done |].
        apply visitedAt_cons in Hp as (_ & c & Hk & Hp).
        destruct k as [| k]; simpl in Hk.
        -- injection Hk as ->. left. right. by exists path.
        -- right. by exists k, c, path.
  - cbn [visitNode]. rewrite (visitNode_fold rest IHr), IHt. split.
    + intros [[Hx | [path Hp]] | (k & c & path & Hk & Hp)].
      * destruct tagName; try (by left).
        apply elem_of_union in Hx as [->%elem_of_singleton | ?]; [| by left].
        right. by exists [0].
      * right. exists (0 :: path). apply visitedAt_cons. split; [done |].
        by exists tagName.
      * right. exists (S k :: path). apply visitedAt_cons. split; [done |].
        by exists c.
    + intros [Hx | [path Hp]].
      * left. left. destruct tagName; try done. apply elem_of_union. by right.
      * destruct path as [| k path]; [done |].
        apply visitedAt_cons in Hp as (_ & c & Hk & Hp).
        destruct k as [| k]; simpl in Hk.
        -- injection Hk as ->. left. right. by exists path.
        -- right. by exists k, c, path.
  - cbn [visitNode]. rewrite (visitNode_fold children IHc). split.
    + intros [? | (k & c & path & Hk & Hp)]; [by left |].
      right. exists (k :: path). apply visitedAt_cons. split; [done |]. by exists c.
    + intros [? | [path Hp]]; [by left |].
      destruct path as [| k path]; [done |].
      apply visitedAt_cons in Hp as (_ & c & Hk & Hp).
      right. by exists k, c, path.
Qed.

Lemma collectUsedIdentifiers_spec (sourceFile : Node) (x : string) :
  x ∈ collectUsedIdentifiers sourceFile ↔
  ∃ path, visitedAt path sourceFile = Some (Identifier x).
Proof.
  unfold collectUsedIdentifiers. rewrite visitNode_spec.
  split; [intros [?%not_elem_of_empty | ?] | intros ?]; [done | done | by right].
Qed.

(** ** The resolver *)

Lemma isUsed_false (names : list string) (used : gset string) :
  isUsed names used = false ↔ ∀ name, name ∈ names → name ∉ used.
Proof.
  unfold isUsed. induction names as [| n names IH]; simpl.
  - split; [intros _ name Hn; by apply elem_of_nil in Hn | done].
  - rewrite orb_false_iff, IH, bool_decide_eq_false. split.
    + intros [Hn Hrest] name [-> | Hin]%elem_of_cons; [done | by apply Hrest].
    + intros Hall. split; [apply Hall; by left |].
      intros name Hin. apply Hall. by right.
Qed.

Lemma isUsed_true (names : list string) (used : gset string) :
  isUsed names used = true ↔ ∃ name, name ∈ names ∧ name ∈ used.
Proof.
  unfold isUsed. rewrite existsb_exists. split.
  - intros (name & Hin%list_elem_of_In & Hd%bool_decide_eq_true). by exists name.
  - intros (name & Hin & Hu). exists name. split; [by apply list_elem_of_In |].
    by apply bool_decide_eq_true.
Qed.

Lemma filterUnusedImports_single (importInfo : ImportInfo) (used : gset string)
    (text : string) :
  filterUnusedImports [importInfo] used text =
  if List.length (importedNames importInfo) =? 0 then []
  else if isUsed (importedNames importInfo) used then []
       else [toUnusedImport text importInfo].
Proof.
  unfold filterUnusedImports. simpl.
  destruct (List.length (importedNames importInfo) =? 0); [done |].
  by destruct (isUsed (importedNames importInfo) used).
Qed.

Lemma filterUnusedImports_acc (imports : list ImportInfo) (used : gset string)
    (text : string) (acc : list UnusedImport) :
  fold_left
    (fun unusedImports importInfo =>
       if List.length (importedNames importInfo) =? 0 then unusedImports
       else if negb (isUsed (importedNames importInfo) used)
            then unusedImports ++ [toUnusedImport text importInfo]
            else unusedImports)
    imports acc
  = acc ++ filterUnusedImports imports used text.
Proof.
  unfold filterUnusedImports. revert acc.
  induction imports as [| j imports IH]; intros acc; simpl.
  - by rewrite app_nil_r.
  - destruct (List.length (importedNames j) =? 0); [apply IH |].
    destruct (isUsed (importedNames j) used); simpl; [apply IH |].
    rewrite IH. rewrite (IH [toUnusedImport text j]). by rewrite <- app_assoc.
Qed.

Lemma filterUnusedImports_cons (importInfo : ImportInfo) (imports : list ImportInfo)
    (used : gset string) (text : string) :
  filterUnusedImports (importInfo :: imports) used text =
  filterUnusedImports [importInfo] used text ++ filterUnusedImports imports used text.
Proof.
  unfold filterUnusedImports at 1 2. simpl. apply filterUnusedImports_acc.
Qed.

Lemma filterUnusedImports_app (imports1 imports2 : list ImportInfo)
    (used : gset string) (text : string) :
  filterUnusedImports (imports1 ++ imports2) used text =
  filterUnusedImports imports1 used text ++ filterUnusedImports imports2 used text.
Proof.
  induction imports1 as [| i imports1 IH]; [done |].
  rewrite <- app_comm_cons, filterUnusedImports_cons, IH.
  rewrite (filterUnusedImports_cons i imports1). by rewrite app_assoc.
Qed.

Lemma filterUnusedImports_middle (imports : list ImportInfo) (k : nat)
    (importInfo : ImportInfo) (used : gset string) (text : string) :
  imports !! k = Some importInfo →
  filterUnusedImports imports used text =
  filterUnusedImports (take k imports) used text
  ++ filterUnusedImports [importInfo] used text
  ++ filterUnusedImports (drop (S k) imports) used text.
Proof.
  intros Hk. rewrite <- (take_drop_middle imports k importInfo Hk) at 1.
  by rewrite filterUnusedImports_app, filterUnusedImports_cons.
Qed.

(** Whether an import is flagged is decided by its own iteration of the
    loop. *)
Lemma flaggedAt_single (imports : list ImportInfo) (k : nat)
    (importInfo : ImportInfo) (used : gset string) (text : string) :
  imports !! k = Some importInfo →
  flaggedAt imports used text k ↔
  filterUnusedImports [importInfo] used text = [toUnusedImport text importInfo].
Proof.
  intros Hk. unfold flaggedAt. split.
  - intros (i & Hi & Heq). rewrite Hk in Hi. injection Hi as <-.
    rewrite (filterUnusedImports_middle imports k importInfo) in Heq by done.
    apply app_inv_head in Heq. rewrite filterUnusedImports_single in Heq |- *.
    destruct (List.length (importedNames importInfo) =? 0);
      [| destruct (isUsed (importedNames importInfo) used)]; try done;
      apply (f_equal List.length) in Heq; simpl in Heq; lia.
  - intros Hs. exists importInfo. split; [done |].
    by rewrite (filterUnusedImports_middle imports k importInfo), Hs.
Qed.

Lemma retainedAt_single (imports : list ImportInfo) (k : nat)
    (importInfo : ImportInfo) (used : gset string) (text : string) :
  imports !! k = Some importInfo →
  retainedAt imports used text k ↔ filterUnusedImports [importInfo] used text = [].
Proof.
  intros Hk. unfold retainedAt. split.
  - intros (i & Hi & Heq).
    rewrite (filterUnusedImports_middle imports k importInfo) in Heq by done.
    apply app_inv_head in Heq. rewrite filterUnusedImports_single in Heq |- *.
    destruct (List.length (importedNames importInfo) =? 0);
      [| destruct (isUsed (importedNames importInfo) used)]; try done.
    apply (f_equal List.length) in Heq; simpl in Heq; lia.
  - intros Hs. exists importInfo. split; [done |].
    by rewrite (filterUnusedImports_middle imports k importInfo), Hs.
Qed.

(** An import of the list is flagged or retained, and never both. *)
Lemma flagged_or_retained (imports : list ImportInfo) (k : nat)
    (importInfo : ImportInfo) (used : gset string) (text : string) :
  imports !! k = Some importInfo →
  (flaggedAt imports used text k ∨ retainedAt imports used text k) ∧
  ¬ (flaggedAt imports used text k ∧ retainedAt imports used text k).
Proof.
  intros Hk.
  rewrite (flaggedAt_single imports k importInfo) by done.
  rewrite (retainedAt_single imports k importInfo) by done.
  rewrite filterUnusedImports_single.
  destruct (List.length (importedNames importInfo) =? 0);
    [| destruct (isUsed (importedNames importInfo) used)].
  - split; [by right | by intros [? _]].
  - split; [by right | by intros [? _]].
  - split; [by left | by intros [_ ?]].
Qed.

(** A flagged import has its finding in the output. *)
Lemma flaggedAt_elem (imports : list ImportInfo) (k : nat)
    (importInfo : ImportInfo) (used : gset string) (text : string) :
  imports !! k = Some importInfo →
  flaggedAt imports used text k →
  toUnusedImport text importInfo ∈ filterUnusedImports imports used text.
Proof.
  intros Hk (i & Hi & ->). rewrite Hk in Hi. injection Hi as <-.
  apply elem_of_app. right. by left.
Qed.

Lemma length_eqb_0_false {A} (l : list A) : l ≠ [] → (List.length l =? 0) = false.
Proof. destruct l; [done | by intros _]. Qed.

(** C1. An import statement with at least one binding name is flagged if
    and only if none of its binding names is in the usage set; it is
    retained as a whole as soon as one of them is. *)
Theorem flagged_iff_no_binding_used (imports : list ImportInfo) (k : nat)
    (importInfo : ImportInfo) (usedIdentifiers : gset string) (text : string) :
  imports !! k = Some importInfo →
  importedNames importInfo ≠ [] →
  (flaggedAt imports usedIdentifiers text k ↔
     ∀ name, name ∈ importedNames importInfo → name ∉ usedIdentifiers) ∧
  (retainedAt imports usedIdentifiers text k ↔
     ∃ name, name ∈ importedNames importInfo ∧ name ∈ usedIdentifiers).
Proof.
  intros Hk Hne.
  rewrite (flaggedAt_single imports k importInfo) by done.
  rewrite (retainedAt_single imports k importInfo) by done.
  rewrite filterUnusedImports_single, (length_eqb_0_false _ Hne).
  rewrite <- isUsed_false, <- isUsed_true.
  destruct (isUsed (importedNames importInfo) usedIdentifiers); split; split; done.
Qed.

(** C3. An import record with no binding names (a side-effect import) is
    never flagged, whatever the usage set is. *)
Theorem side_effect_import_never_flagged (imports : list ImportInfo) (k : nat)
    (importInfo : ImportInfo) (usedIdentifiers : gset string) (text : string) :
  imports !! k = Some importInfo →
  importedNames importInfo = [] →
  ¬ flaggedAt imports usedIdentifiers text k ∧
  retainedAt imports usedIdentifiers text k.
Proof.
  intros Hk Hnil.
  rewrite (flaggedAt_single imports k importInfo) by done.
  rewrite (retainedAt_single imports k importInfo) by done.
  rewrite filterUnusedImports_single, Hnil. simpl. done.
Qed.

(** C10. The resolver is antitone in the usage set: against a larger usage
    set every flagged import was already flagged against the smaller one,
    and the findings are a sublist of the earlier findings. *)
Theorem filterUnusedImports_antitone (imports : list ImportInfo)
    (U U' : gset string) (text : string) :
  U ⊆ U' →
  (∀ k, flaggedAt imports U' text k → flaggedAt imports U text k) ∧
  filterUnusedImports imports U' text `sublist_of` filterUnusedImports imports U text.
Proof.
  intros Hsub.
  assert (Hmono : ∀ names, isUsed names U' = false → isUsed names U = false).
  { intros names. rewrite !isUsed_false. intros Hall name Hin Hu.
    apply (Hall name Hin). by apply Hsub. }
  split.
  - intros k (i & Hk & Heq).
    assert (Hf : flaggedAt imports U' text k) by (by exists i).
    rewrite (flaggedAt_single imports k i) in Hf |- * by done.
    rewrite filterUnusedImports_single in Hf |- *.
    destruct (List.length (importedNames i) =? 0); [done |].
    destruct (isUsed (importedNames i) U') eqn:HU'; [done |].
    by rewrite (Hmono _ HU').
  - induction imports as [| i imports IH]; [done |].
    rewrite !(filterUnusedImports_cons i imports).
    apply sublist_app; [| exact IH].
    rewrite !filterUnusedImports_single.
    destruct (List.length (importedNames i) =? 0); [done |].
    destruct (isUsed (importedNames i) U') eqn:HU'.
    + apply sublist_nil_l.
    + by rewrite (Hmono _ HU').
Qed.

(** ** The pipeline *)

Lemma collectImports_names (sourceFile : Node) (k : nat) (importInfo : ImportInfo)
    pos e c m :
  collectImports sourceFile !! k = Some importInfo →
  node importInfo = ImportDeclaration pos e c m →
  importedNames importInfo = clauseNames c ∧
  infoStart importInfo = pos ∧ infoEnd importInfo = e.
Proof.
  intros Hk Hnode.
  destruct (collectImports_sound sourceFile importInfo) as (pos' & e' & c' & m' & Hn & Hi).
  { eapply list_elem_of_lookup_2, Hk. }
  rewrite Hnode in Hn. injection Hn as <- <- <- <-.
  by rewrite Hi.
Qed.

Lemma visitedAt_app (path1 path2 : list nat) (n target : Node) :
  visitedAt path1 n = Some target →
  visitedAt (path1 ++ path2) n = visitedAt path2 target.
Proof.
  revert n. induction path1 as [| k path1 IH]; intros n Hp.
  - simpl in Hp. destruct (isImportDeclaration n) eqn:Hi; [done |].
    injection Hp as <-. done.
  - apply visitedAt_cons in Hp as (Hi & c & Hk & Hp).
    simpl. rewrite Hi, Hk. by apply IH.
Qed.

Lemma specifierNames_flat_map (element : ImportSpecifier)
    (elements : list ImportSpecifier) :
  element ∈ elements →
  ∃ before after,
    flat_map specifierNames elements = before ++ specifierNames element ++ after.
Proof.
  intros (l1 & l2 & ->)%list_elem_of_split.
  exists (flat_map specifierNames l1), (flat_map specifierNames l2).
  by rewrite flat_map_app.
Qed.

Lemma visitedAt_nodeAt (path : list nat) (n d : Node) :
  visitedAt path n = Some d → nodeAt path n = Some d.
Proof.
  revert n. induction path as [| k path IH]; intros n Hp.
  - simpl in Hp. by destruct (isImportDeclaration n).
  - apply visitedAt_cons in Hp as (_ & c & Hk & Hp).
    apply nodeAt_cons. exists c. split; [done | by apply IH].
Qed.

(** A node reached by [visitedAt] has no import declaration on its path. *)
Lemma visitedAt_no_import (path : list nat) (n d : Node) :
  visitedAt path n = Some d →
  ∀ path1 path2 ancestor,
    path = path1 ++ path2 → nodeAt path1 n = Some ancestor →
    isImportDeclaration ancestor = false.
Proof.
  revert n. induction path as [| k path IH]; intros n Hp path1 path2 ancestor Heq Ha.
  - symmetry in Heq. apply app_eq_nil in Heq as [-> ->].
    injection Ha as <-. simpl in Hp. by destruct (isImportDeclaration n).
  - destruct path1 as [| k1 path1].
    + injection Ha as <-. by apply visitedAt_cons in Hp as (Hi & _).
    + injection Heq as <- ->.
      apply visitedAt_cons in Hp as (_ & c & Hk & Hp).
      apply nodeAt_cons in Ha as (c1 & Hk1 & Ha).
      rewrite Hk in Hk1. injection Hk1 as <-.
      by apply (IH c Hp path1 path2).
Qed.

(** C4. For an aliased specifier [original as local] the extractor records
    both names, and the statement is retained as soon as either name is in
    the usage set of the file. *)
Theorem aliased_import_retained_by_either_name (sourceFile : Node) (text : string)
    (k : nat) (importInfo : ImportInfo) pos e (c : ImportClause) m
    (elements : list ImportSpecifier) (local original : string) :
  collectImports sourceFile !! k = Some importInfo →
  node importInfo = ImportDeclaration pos e (Some c) m →
  namedBindings c = Some (NamedImports elements) →
  {| specName := local; propertyName := Some original |} ∈ elements →
  (local ∈ importedNames importInfo ∧ original ∈ importedNames importInfo) ∧
  (local ∈ collectUsedIdentifiers sourceFile ∨
   original ∈ collectUsedIdentifiers sourceFile →
   retainedAt (collectImports sourceFile) (collectUsedIdentifiers sourceFile) text k ∧
   ¬ flaggedAt (collectImports sourceFile) (collectUsedIdentifiers sourceFile) text k).
Proof.
  intros Hk Hnode Hb Hel.
  destruct (collectImports_names _ _ _ _ _ _ _ Hk Hnode) as (Hnames & _ & _).
  assert (Hboth : local ∈ importedNames importInfo ∧ original ∈ importedNames importInfo).
  { rewrite Hnames. simpl. rewrite Hb.
    destruct (specifierNames_flat_map _ _ Hel) as (before & after & ->).
    unfold specifierNames; simpl.
    split; apply elem_of_app; right; apply elem_of_app; right.
    - by left.
    - right. by left. }
  split; [exact Hboth |].
  intros Hused.
  assert (Hu : isUsed (importedNames importInfo) (collectUsedIdentifiers sourceFile) = true).
  { apply isUsed_true. destruct Hboth as [Hl Ho].
    destruct Hused; [by exists local | by exists original]. }
  rewrite (flaggedAt_single _ k importInfo), (retainedAt_single _ k importInfo) by done.
  rewrite filterUnusedImports_single, Hu.
  by destruct (List.length (importedNames importInfo) =? 0).
Qed.

(** C5. A namespace import [import * as X from m] is retained if and only
    if an identifier node with text [X] is reached outside the import
    declarations of the file (for instance as the object of a property
    access), and flagged otherwise; when every identifier node with text
    [X] lies at or below an import declaration, the import is flagged. *)
Theorem namespace_import_retained_iff (sourceFile : Node) (text : string)
    (k : nat) (importInfo : ImportInfo) pos e m (X : string) :
  collectImports sourceFile !! k = Some importInfo →
  node importInfo = ImportDeclaration pos e (Some (namespaceClause X)) m →
  (retainedAt (collectImports sourceFile) (collectUsedIdentifiers sourceFile) text k ↔
     ∃ path, visitedAt path sourceFile = Some (Identifier X)) ∧
  (flaggedAt (collectImports sourceFile) (collectUsedIdentifiers sourceFile) text k ↔
     ¬ ∃ path, visitedAt path sourceFile = Some (Identifier X)) ∧
  ((∀ path, nodeAt path sourceFile = Some (Identifier X) →
      ∃ path1 path2 ancestor,
        path = path1 ++ path2 ∧ nodeAt path1 sourceFile = Some ancestor ∧
        isImportDeclaration ancestor = true) →
   flaggedAt (collectImports sourceFile) (collectUsedIdentifiers sourceFile) text k).
Proof.
  intros Hk Hnode.
  destruct (collectImports_names _ _ _ _ _ _ _ Hk Hnode) as (Hnames & _ & _).
  simpl in Hnames.
  assert (Hinside :
    (∀ path, nodeAt path sourceFile = Some (Identifier X) →
       ∃ path1 path2 ancestor,
         path = path1 ++ path2 ∧ nodeAt path1 sourceFile = Some ancestor ∧
         isImportDeclaration ancestor = true) →
    X ∉ collectUsedIdentifiers sourceFile).
  { intros Hall [path Hp]%collectUsedIdentifiers_spec.
    destruct (Hall path (visitedAt_nodeAt _ _ _ Hp)) as (p1 & p2 & a & Heq & Ha & Hi).
    rewrite (visitedAt_no_import _ _ _ Hp p1 p2 a Heq Ha) in Hi. discriminate. }
  rewrite (flaggedAt_single _ k importInfo), (retainedAt_single _ k importInfo) by done.
  rewrite filterUnusedImports_single, Hnames. simpl.
  rewrite <- collectUsedIdentifiers_spec.
  destruct (bool_decide_reflect (X ∈ collectUsedIdentifiers sourceFile)) as [Hx | Hx].
  - split; [done |]. split; [split; [done | by intros Hn] |].
    intros Hall. by destruct (Hinside Hall).
  - split; [split; [done | by intros Hn] |]. split; [done |]. done.
Qed.

(** C6. When an opening or self-closing markup element whose tag name is a
    plain identifier is reached by the collector, the tag name is in the
    usage set, so a default import of that name is retained. *)
Theorem markup_tag_counts_as_usage (sourceFile : Node) (text : string)
    (path : list nat) (tag : Node) (w : string) (rest : list Node) :
  tag = JsxOpeningElement (Identifier w) rest ∨
  tag = JsxSelfClosingElement (Identifier w) rest →
  visitedAt path sourceFile = Some tag →
  w ∈ collectUsedIdentifiers sourceFile ∧
  ∀ k importInfo pos e m,
    collectImports sourceFile !! k = Some importInfo →
    node importInfo = ImportDeclaration pos e (defaultImport w) m →
    retainedAt (collectImports sourceFile) (collectUsedIdentifiers sourceFile) text k ∧
    ¬ flaggedAt (collectImports sourceFile) (collectUsedIdentifiers sourceFile) text k.
Proof.
  intros Htag Hp.
  assert (Hw : w ∈ collectUsedIdentifiers sourceFile).
  { apply collectUsedIdentifiers_spec. exists (path ++ [0]).
    rewrite (visitedAt_app path [0] sourceFile tag Hp).
    by destruct Htag as [-> | ->]. }
  split; [exact Hw |].
  intros k importInfo pos e m Hk Hnode.
  destruct (collectImports_names _ _ _ _ _ _ _ Hk Hnode) as (Hnames & _ & _).
  simpl in Hnames.
  rewrite (flaggedAt_single _ k importInfo), (retainedAt_single _ k importInfo) by done.
  rewrite filterUnusedImports_single, Hnames. simpl.
  by rewrite (bool_decide_eq_true_2 _ Hw).
Qed.

Lemma filterUnusedImports_elem (imports : list ImportInfo) (used : gset string)
    (text : string) (f : UnusedImport) :
  f ∈ filterUnusedImports imports used text →
  ∃ importInfo, importInfo ∈ imports ∧ f = toUnusedImport text importInfo.
Proof.
  induction imports as [| i imports IH]; [by intros ?%elem_of_nil |].
  rewrite filterUnusedImports_cons, filterUnusedImports_single.
  intros [Hf | Hf]%elem_of_app.
  - destruct (List.length (importedNames i) =? 0); [by apply elem_of_nil in Hf |].
    destruct (isUsed (importedNames i) used); [by apply elem_of_nil in Hf |].
    apply list_elem_of_singleton in Hf. exists i. split; [by left | done].
  - destruct (IH Hf) as (j & Hj & ->). exists j. split; [by right | done].
Qed.

(** C8, as the code has it. The display string of a finding is the full
    list of binding names the extractor recorded for the statement, joined
    with a comma and a space; for an aliased specifier that list holds the
    local name immediately followed by the original name. *)
Theorem display_name_joins_recorded_names (sourceFile : Node) (text : string)
    (f : UnusedImport) :
  f ∈ findUnusedImports sourceFile text →
  ∃ importInfo pos e c m,
    importInfo ∈ collectImports sourceFile ∧
    node importInfo = ImportDeclaration pos e c m ∧
    start f = pos ∧ end_ f = e ∧
    importName f = String.concat ", " (clauseNames c) ∧
    ∀ cl elements local original,
      c = Some cl →
      namedBindings cl = Some (NamedImports elements) →
      {| specName := local; propertyName := Some original |} ∈ elements →
      ∃ before after, clauseNames c = before ++ local :: original :: after.
Proof.
  intros Hf. apply filterUnusedImports_elem in Hf as (i & Hi & ->).
  destruct (collectImports_sound sourceFile i Hi) as (pos & e & c & m & Hn & Heq).
  exists i, pos, e, c, m.
  split; [exact Hi |]. split; [exact Hn |].
  rewrite Heq. simpl. do 3 (split; [done |]).
  intros cl elements local original -> Hb Hel. simpl. rewrite Hb.
  destruct (specifierNames_flat_map _ _ Hel) as (before & after & ->).
  exists (match clauseName cl with Some n => [n] | None => [] end ++ before), after.
  by rewrite <- app_assoc.
Qed.

(** C8 as worded fails: for [import { useState as st } from 'm'] with no
    use of either name, the display string is ["st, useState"], not the
    single declared name. *)
Lemma alias_display_name_is_doubled :
  map importName (findUnusedImports aliasTree aliasText) = ["st, useState"] ∧
  String.concat ", " (declaredNames (Some aliasClause)) = "st" ∧
  map importName (findUnusedImports aliasTree aliasText)
    ≠ [String.concat ", " (declaredNames (Some aliasClause))].
Proof.
  split; [reflexivity |]. split; [reflexivity |]. vm_compute. discriminate.
Qed.

(** ** The command *)

Example getScriptKind_of_supported :
  map getScriptKind ["javascript"; "typescript"; "javascriptreact"; "typescriptreact"]
  = [JS; TS; JSX; TSX].
Proof. reflexivity. Qed.

(** C9. For a document whose language is none of the four supported ones
    the command shows the unsupported-file error, hands no edit to the
    editor and leaves the document as it was. *)
Theorem unsupported_language_is_a_no_op
    (tsCreateSourceFile : string → string → ScriptKind → Node + string)
    (document : TextDocument) :
  languageId document ∉
    ["javascript"; "typescript"; "javascriptreact"; "typescriptreact"] →
  removeUnusedImportsHandler tsCreateSourceFile (Some document) =
  {| shown := [showErrorMessage
                 "This command only works with JavaScript/TypeScript files"];
     applied := [];
     documentAfter := Some document |}.
Proof.
  intros Hlang. unfold removeUnusedImportsHandler, isSupportedFile.
  by rewrite (bool_decide_eq_false_2 _ Hlang).
Qed.

(** ** The edit planner *)

Lemma insertSorted_Permutation {A} (compare : A → A → Z) (x : A) (l : list A) :
  insertSorted compare x l ≡ₚ x :: l.
Proof.
  induction l as [| y l IH]; simpl; [done |].
  destruct (compare x y <=? 0)%Z; [done |].
  rewrite IH. apply Permutation_swap.
Qed.

Lemma sort_Permutation {A} (compare : A → A → Z) (l : list A) :
  sort compare l ≡ₚ l.
Proof.
  induction l as [| x l IH]; simpl; [done |].
  by rewrite insertSorted_Permutation, IH.
Qed.

Lemma insertSorted_descending (x : UnusedImport) (l : list UnusedImport) :
  StronglySorted (fun a b => start b ≤ start a) l →
  StronglySorted (fun a b => start b ≤ start a) (insertSorted byStartDescending x l).
Proof.
  induction 1 as [| y l Hs IH Hy]; simpl.
  - constructor; [constructor | constructor].
  - unfold byStartDescending at 1.
    destruct (Z.leb_spec (Z.of_nat (start y) - Z.of_nat (start x)) 0) as [Hle | Hgt].
    + constructor; [by constructor |].
      constructor; [lia |].
      eapply Forall_impl; [exact Hy |]. simpl. intros b Hb. lia.
    + constructor; [exact IH |].
      rewrite insertSorted_Permutation. constructor; [lia | exact Hy].
Qed.

(** The batch is planned over the findings in descending order of start,
    one full-line deletion per finding. *)
Lemma sort_byStartDescending_sorted (l : list UnusedImport) :
  StronglySorted (fun a b => start b ≤ start a) (sort byStartDescending l).
Proof.
  induction l as [| x l IH]; simpl; [constructor |].
  by apply insertSorted_descending.
Qed.

Lemma removalEdits_length (document : TextDocument) (unusedImports : list UnusedImport) :
  List.length (removalEdits document unusedImports) = List.length unusedImports.
Proof.
  unfold removalEdits. rewrite length_map.
  apply Permutation_length, sort_Permutation.
Qed.

(** C2, the code at a failing input. In [twoImportsText] the unused import
    of [B] is on the second line, but its recorded start (offset 18) lies
    on the first line; the one deletion planned covers the first line, and
    applying it removes the used import of [A] and keeps the import of [B]. *)
Theorem removal_deletes_line_of_full_start :
  let document := sampleDocument twoImportsText in
  let findings := findUnusedImports twoImportsTree twoImportsText in
  findings = [ {| start := 18; end_ := 37; importName := "B"; line := 1 |} ] ∧
  positionAt document 18 = {| posLine := 0; character := 18 |} ∧
  removalEdits document findings =
    [ {| rangeStart := {| posLine := 0; character := 0 |};
         rangeEnd := {| posLine := 1; character := 0 |} |} ] ∧
  getText (applyRemovalEdits document findings) =
    "import B from 'b';" +:+ newline +:+ "A;" +:+ newline.
Proof. vm_compute. done. Qed.

(** A flagged import that spans several lines loses its first line only. *)
Lemma multi_line_import_loses_first_line :
  let document := sampleDocument multiLineText in
  let findings := findUnusedImports multiLineTree multiLineText in
  List.length findings = 1 ∧
  getText (applyRemovalEdits document findings) =
    "  a" +:+ newline +:+ "} from 'm';" +:+ newline.
Proof. vm_compute. done. Qed.

(** The scenario of the specification: only the import of [React] is
    flagged; it is the first statement, its start is on its own line, and
    the run leaves the other three lines. *)
Example end_to_end_scenario :
  collectImports scenarioTree = scenarioImports ∧
  collectUsedIdentifiers scenarioTree = scenarioUsed ∧
  findUnusedImports scenarioTree scenarioText =
    [ {| start := 0; end_ := 26; importName := "React"; line := 1 |} ] ∧
  getText (applyRemovalEdits (sampleDocument scenarioText)
             (findUnusedImports scenarioTree scenarioText)) =
    "import { useState, useEffect } from 'react';" +:+ newline +:+
    "import './styles.css';" +:+ newline +:+
    "function App() { return useState; }" +:+ newline.
Proof. vm_compute. done. Qed.

(** C7, the code at a failing input. One run on [twoImportsText] succeeds
    and leaves [afterFirstRunText]; a second run on that text still has a
    finding, the import of [B]. *)
Theorem second_run_still_has_a_finding :
  removeUnusedImportsHandler sampleParser (Some (sampleDocument twoImportsText)) =
    {| shown := [showInformationMessage "Removed 1 unused import(s)"];
       applied := [ [ {| rangeStart := {| posLine := 0; character := 0 |};
                         rangeEnd := {| posLine := 1; character := 0 |} |} ] ];
       documentAfter := Some (sampleDocument afterFirstRunText) |} ∧
  sampleParser "sample.ts" afterFirstRunText TS = inl afterFirstRunTree ∧
  findUnusedImports afterFirstRunTree afterFirstRunText =
    [ {| start := 0; end_ := 18; importName := "B"; line := 1 |} ].
Proof. vm_compute. done. Qed.

(** ** Instances on the sample documents *)

Lemma flagged_iff_no_binding_used_witness :
  scenarioImports !! 1 = Some scenarioHooks ∧
  importedNames scenarioHooks ≠ [] ∧
  (flaggedAt scenarioImports scenarioUsed "" 1 ↔
     ∀ name, name ∈ importedNames scenarioHooks → name ∉ scenarioUsed) ∧
  (retainedAt scenarioImports scenarioUsed "" 1 ↔
     ∃ name, name ∈ importedNames scenarioHooks ∧ name ∈ scenarioUsed).
Proof.
  split; [reflexivity |]. split; [simpl; discriminate |].
  apply (flagged_iff_no_binding_used scenarioImports 1 scenarioHooks scenarioUsed "");
    [reflexivity | simpl; discriminate].
Defined.

Lemma side_effect_import_never_flagged_witness :
  scenarioImports !! 2 = Some scenarioStyles ∧
  importedNames scenarioStyles = [] ∧
  ¬ flaggedAt scenarioImports scenarioUsed "" 2 ∧
  retainedAt scenarioImports scenarioUsed "" 2.
Proof.
  split; [reflexivity |]. split; [reflexivity |].
  apply (side_effect_import_never_flagged scenarioImports 2 scenarioStyles scenarioUsed "");
    reflexivity.
Defined.

Lemma filterUnusedImports_antitone_witness :
  ({[ "useState" ]} : gset string) ⊆ scenarioUsed ∧
  (∀ k, flaggedAt scenarioImports scenarioUsed "" k →
        flaggedAt scenarioImports {[ "useState" ]} "" k) ∧
  filterUnusedImports scenarioImports scenarioUsed ""
    `sublist_of` filterUnusedImports scenarioImports {[ "useState" ]} "".
Proof.
  assert (H : ({[ "useState" ]} : gset string) ⊆ scenarioUsed).
  { apply (bool_decide_unpack _). vm_compute. exact I. }
  split; [exact H |].
  exact (filterUnusedImports_antitone scenarioImports {[ "useState" ]} scenarioUsed "" H).
Defined.

Lemma aliased_import_retained_by_either_name_witness :
  let info := importInfoOf (ImportDeclaration 0 35 (Some aliasClause) "m") in
  let alias := {| specName := "st"; propertyName := Some "useState" |} in
  collectImports aliasUsedTree !! 0 = Some info ∧
  node info = ImportDeclaration 0 35 (Some aliasClause) "m" ∧
  namedBindings aliasClause = Some (NamedImports [alias]) ∧
  alias ∈ [alias] ∧
  ("st" ∈ importedNames info ∧ "useState" ∈ importedNames info) ∧
  ("st" ∈ collectUsedIdentifiers aliasUsedTree ∨
   "useState" ∈ collectUsedIdentifiers aliasUsedTree →
   retainedAt (collectImports aliasUsedTree) (collectUsedIdentifiers aliasUsedTree)
     aliasUsedText 0 ∧
   ¬ flaggedAt (collectImports aliasUsedTree) (collectUsedIdentifiers aliasUsedTree)
     aliasUsedText 0).
Proof.
  intros info alias.
  split; [reflexivity |]. split; [reflexivity |]. split; [reflexivity |].
  split; [left |].
  apply (aliased_import_retained_by_either_name aliasUsedTree aliasUsedText 0 info
           0 35 aliasClause "m" [alias] "st" "useState");
    [reflexivity | reflexivity | reflexivity | left].
Defined.

Lemma namespace_import_retained_iff_witness :
  let info := importInfoOf (ImportDeclaration 0 24 (Some (namespaceClause "fs")) "m") in
  collectImports namespaceTree !! 0 = Some info ∧
  node info = ImportDeclaration 0 24 (Some (namespaceClause "fs")) "m" ∧
  (retainedAt (collectImports namespaceTree) (collectUsedIdentifiers namespaceTree)
     namespaceText 0 ↔
     ∃ path, visitedAt path namespaceTree = Some (Identifier "fs")) ∧
  (flaggedAt (collectImports namespaceTree) (collectUsedIdentifiers namespaceTree)
     namespaceText 0 ↔
     ¬ ∃ path, visitedAt path namespaceTree = Some (Identifier "fs")) ∧
  ((∀ path, nodeAt path namespaceTree = Some (Identifier "fs") →
      ∃ path1 path2 ancestor,
        path = path1 ++ path2 ∧ nodeAt path1 namespaceTree = Some ancestor ∧
        isImportDeclaration ancestor = true) →
   flaggedAt (collectImports namespaceTree) (collectUsedIdentifiers namespaceTree)
     namespaceText 0).
Proof.
  intros info.
  split; [reflexivity |]. split; [reflexivity |].
  apply (namespace_import_retained_iff namespaceTree namespaceText 0 info 0 24 "m" "fs");
    reflexivity.
Defined.

Lemma markup_tag_counts_as_usage_witness :
  let attributes := [SyntaxNode "JsxAttributes" []] in
  ((widgetTag = JsxOpeningElement (Identifier "Widget") attributes) ∨
   (widgetTag = JsxSelfClosingElement (Identifier "Widget") attributes)) ∧
  visitedAt [1; 0] widgetTree = Some widgetTag ∧
  "Widget" ∈ collectUsedIdentifiers widgetTree ∧
  ∀ k importInfo pos e m,
    collectImports widgetTree !! k = Some importInfo →
    node importInfo = ImportDeclaration pos e (defaultImport "Widget") m →
    retainedAt (collectImports widgetTree) (collectUsedIdentifiers widgetTree) widgetText k ∧
    ¬ flaggedAt (collectImports widgetTree) (collectUsedIdentifiers widgetTree) widgetText k.
Proof.
  intros attributes.
  split; [right; reflexivity |]. split; [reflexivity |].
  apply (markup_tag_counts_as_usage widgetTree widgetText [1; 0] widgetTag "Widget"
           [SyntaxNode "JsxAttributes" []]);
    [right; reflexivity | reflexivity].
Defined.

Lemma display_name_joins_recorded_names_witness :
  let f := {| start := 0; end_ := 35; importName := "st, useState"; line := 1 |} in
  f ∈ findUnusedImports aliasTree aliasText ∧
  ∃ importInfo pos e c m,
    importInfo ∈ collectImports aliasTree ∧
    node importInfo = ImportDeclaration pos e c m ∧
    start f = pos ∧ end_ f = e ∧
    importName f = String.concat ", " (clauseNames c) ∧
    ∀ cl elements local original,
      c = Some cl →
      namedBindings cl = Some (NamedImports elements) →
      {| specName := local; propertyName := Some original |} ∈ elements →
      ∃ before after, clauseNames c = before ++ local :: original :: after.
Proof.
  intros f.
  assert (H : f ∈ findUnusedImports aliasTree aliasText).
  { change (findUnusedImports aliasTree aliasText) with [f]. left. }
  split; [exact H |].
  exact (display_name_joins_recorded_names aliasTree aliasText f H).
Defined.

Lemma unsupported_language_is_a_no_op_witness :
  let document := {| fileName := "notes.py"; languageId := "python";
                     getText := "import os" |} in
  (languageId document ∉
     ["javascript"; "typescript"; "javascriptreact"; "typescriptreact"]) ∧
  removeUnusedImportsHandler sampleParser (Some document) =
  {| shown := [showErrorMessage
                 "This command only works with JavaScript/TypeScript files"];
     applied := [];
     documentAfter := Some document |}.
Proof.
  intros document.
  assert (H : languageId document ∉
                ["javascript"; "typescript"; "javascriptreact"; "typescriptreact"]).
  { apply (bool_decide_eq_false_1 _). vm_compute. reflexivity. }
  split; [exact H |].
  exact (unsupported_language_is_a_no_op sampleParser document H).
Defined.

(** ** Further properties of the extractor *)

Lemma collectImports_in_tree (sourceFile : Node) (importInfo : ImportInfo) :
  importInfo ∈ collectImports sourceFile →
  ∃ path d, nodeAt path sourceFile = Some d ∧ isImportDeclaration d = true ∧
            importInfo = importInfoOf d.
Proof.
  unfold collectImports.
  induction sourceFile as [pos e c m | text | tagName rest IHt IHr | tagName rest IHt IHr
                 | kind children IHc] using Node_rect_children; simpl.
  - intros ->%list_elem_of_singleton. by exists [], (ImportDeclaration pos e c m).
  - by intros ?%elem_of_nil.
  - rewrite visitImports_children. intros [H | H]%elem_of_app.
    + destruct (IHt H) as (path & d & Hp & Hd & Hi).
      exists (0 :: path), d. split; [| done]. apply nodeAt_cons. by exists tagName.
    + apply list_elem_of_In, in_flat_map in H as (c & Hc%list_elem_of_In & Hi%list_elem_of_In).
      apply list_elem_of_lookup_1 in Hc as [k Hk].
      rewrite Forall_lookup in IHr.
      destruct (IHr k c Hk Hi) as (path & d & Hp & Hd & Heq).
      exists (S k :: path), d. split; [| done]. apply nodeAt_cons. by exists c.
  - rewrite visitImports_children. intros [H | H]%elem_of_app.
    + destruct (IHt H) as (path & d & Hp & Hd & Hi).
      exists (0 :: path), d. split; [| done]. apply nodeAt_cons. by exists tagName.
    + apply list_elem_of_In, in_flat_map in H as (c & Hc%list_elem_of_In & Hi%list_elem_of_In).
      apply list_elem_of_lookup_1 in Hc as [k Hk].
      rewrite Forall_lookup in IHr.
      destruct (IHr k c Hk Hi) as (path & d & Hp & Hd & Heq).
      exists (S k :: path), d. split; [| done]. apply nodeAt_cons. by exists c.
  - rewrite visitImports_children. simpl. intros H.
    apply list_elem_of_In, in_flat_map in H as (c & Hc%list_elem_of_In & Hi%list_elem_of_In).
    apply list_elem_of_lookup_1 in Hc as [k Hk].
    rewrite Forall_lookup in IHc.
    destruct (IHc k c Hk Hi) as (path & d & Hp & Hd & Heq).
    exists (k :: path), d. split; [| done]. apply nodeAt_cons. by exists c.
Qed.

(** X1. The records of [collectImports] are exactly the records of the
    import declarations found anywhere in the tree: nothing else is
    recorded and no import declaration is missed. *)
Theorem collectImports_exactly_the_imports (sourceFile : Node) (importInfo : ImportInfo) :
  importInfo ∈ collectImports sourceFile ↔
  ∃ path d, nodeAt path sourceFile = Some d ∧ isImportDeclaration d = true ∧
            importInfo = importInfoOf d.
Proof.
  split; [apply collectImports_in_tree |].
  intros (path & d & Hp & Hd & ->). by apply (collectImports_complete sourceFile path).
Qed.

(** X2. When the extractor finds no import declaration, there is no
    finding, and the command on such a supported document reports that no
    unused import was found, hands no edit to the editor and leaves the
    document as it was. *)
Theorem no_imports_is_a_no_op
    (tsCreateSourceFile : string → string → ScriptKind → Node + string)
    (document : TextDocument) (sourceFile : Node) :
  isSupportedFile (languageId document) = true →
  createSourceFile tsCreateSourceFile document (getText document) = inl sourceFile →
  collectImports sourceFile = [] →
  findUnusedImports sourceFile (getText document) = [] ∧
  removeUnusedImportsHandler tsCreateSourceFile (Some document) =
    {| shown := [showInformationMessage "No unused imports found"];
       applied := [];
       documentAfter := Some document |}.
Proof.
  intros Hs Hparse Hnone.
  assert (Hf : findUnusedImports sourceFile (getText document) = []).
  { unfold findUnusedImports. by rewrite Hnone. }
  split; [exact Hf |].
  unfold removeUnusedImportsHandler. by rewrite Hs, Hparse, Hf.
Qed.

Lemma flat_map_specifierNames_plain (elements : list ImportSpecifier) :
  Forall (fun element => propertyName element = None) elements →
  flat_map specifierNames elements = map specName elements.
Proof.
  induction 1 as [| el elements Hel _ IH]; [done |].
  cbn [flat_map map]. rewrite IH. unfold specifierNames. by rewrite Hel.
Qed.

Lemma map_specName_sublist (elements : list ImportSpecifier) :
  map specName elements `sublist_of` flat_map specifierNames elements.
Proof.
  induction elements as [| el elements IH]; [done |].
  cbn [flat_map map]. unfold specifierNames at 1. simpl. apply sublist_skip.
  destruct (propertyName el); [by apply sublist_cons | done].
Qed.

(** X3. The extractor records one name for the default binding, for the
    namespace binding and for every named specifier without an alias, in
    declaration order: the declared local names are always a sublist of the
    recorded names, and when no specifier of the statement is aliased the
    recorded names are exactly the declared local names. *)
Theorem clauseNames_without_alias (importClause : option ImportClause) :
  declaredNames importClause `sublist_of` clauseNames importClause ∧
  ((∀ c elements, importClause = Some c →
       namedBindings c = Some (NamedImports elements) →
       Forall (fun element => propertyName element = None) elements) →
   clauseNames importClause = declaredNames importClause).
Proof.
  destruct importClause as [c |]; [| done]. simpl. split.
  - apply sublist_app; [done |].
    destruct (namedBindings c) as [[elements | name] |]; try done.
    apply map_specName_sublist.
  - intros Hplain. f_equal.
    destruct (namedBindings c) as [[elements | name] |] eqn:Hb; try done.
    apply flat_map_specifierNames_plain. by apply (Hplain c).
Qed.

Lemma clauseNames_without_alias_witness :
  let importClause :=
    Some {| clauseName := Some "React";
            namedBindings := Some (NamedImports
              [ {| specName := "useState"; propertyName := None |};
                {| specName := "useEffect"; propertyName := None |} ]) |} in
  clauseNames importClause = ["React"; "useState"; "useEffect"] ∧
  clauseNames importClause = declaredNames importClause.
Proof.
  intros importClause. split; [reflexivity |].
  apply (clauseNames_without_alias importClause).
  intros c elements [= <-] [= <-]. repeat constructor.
Defined.

Lemma no_imports_is_a_no_op_witness :
  let document := sampleDocument noImportText in
  isSupportedFile (languageId document) = true ∧
  createSourceFile (fixedParser noImportTree) document (getText document)
    = inl noImportTree ∧
  collectImports noImportTree = [] ∧
  findUnusedImports noImportTree (getText document) = [] ∧
  removeUnusedImportsHandler (fixedParser noImportTree) (Some document) =
    {| shown := [showInformationMessage "No unused imports found"];
       applied := [];
       documentAfter := Some document |}.
Proof.
  intros document.
  split; [reflexivity |]. split; [reflexivity |]. split; [reflexivity |].
  apply (no_imports_is_a_no_op (fixedParser noImportTree) document noImportTree);
    reflexivity.
Defined.

(** ** Further properties of the usage collector *)

Lemma visitNode_union (n : Node) (used : gset string) :
  visitNode n used = used ∪ collectUsedIdentifiers n.
Proof.
  apply set_eq. intros x.
  rewrite elem_of_union, visitNode_spec, collectUsedIdentifiers_spec. done.
Qed.

Lemma visitNode_children_union (cs : list Node) (used : gset string) :
  fold_left (fun acc c => visitNode c acc) cs used =
  used ∪ ⋃ (map collectUsedIdentifiers cs).
Proof.
  revert used. induction cs as [| c cs IH]; intros used; simpl.
  - by rewrite (right_id_L ∅ (∪)).
  - rewrite IH, visitNode_union. by rewrite (assoc_L (∪)).
Qed.


(** ** Further properties of the resolver *)

Lemma filterUnusedImports_filter (imports : list ImportInfo) (used : gset string)
    (text : string) :
  filterUnusedImports imports used text =
  map (toUnusedImport text)
      (filter (fun importInfo => importedNames importInfo ≠ [] ∧
                                 isUsed (importedNames importInfo) used = false)
              imports).
Proof.
  induction imports as [| i imports IH]; [done |].
  rewrite filterUnusedImports_cons, filterUnusedImports_single, IH, filter_cons.
  case_decide as Hd.
  - destruct Hd as [Hne Hu]. by rewrite (length_eqb_0_false _ Hne), Hu.
  - destruct (importedNames i) as [| name names] eqn:Hn; [done |].
    destruct (isUsed (name :: names) used) eqn:Hu; [done |].
    destruct Hd. by split.
Qed.

Lemma finding_iff_unused_import_aux (imports : list ImportInfo)
    (used : gset string) (text : string) (f : UnusedImport) :
  f ∈ filterUnusedImports imports used text →
  ∃ importInfo,
    importInfo ∈ imports ∧ importedNames importInfo ≠ [] ∧
    ∀ name, name ∈ importedNames importInfo → name ∉ used.
Proof.
  rewrite filterUnusedImports_filter. intros Hf.
  apply list_elem_of_In, in_map_iff in Hf as (i & <- & Hi).
  apply list_elem_of_In, list_elem_of_filter in Hi as [[Hne Hu] Hin].
  exists i. by rewrite <- isUsed_false.
Qed.

(** X5. A finding is in the resolver's output exactly when it is the record
    of an import of the list that has at least one name and none of whose
    names is in the usage set: an import with a used name is never among
    the findings. *)
Theorem finding_iff_unused_import (imports : list ImportInfo)
    (usedIdentifiers : gset string) (text : string) (f : UnusedImport) :
  f ∈ filterUnusedImports imports usedIdentifiers text ↔
  ∃ importInfo,
    importInfo ∈ imports ∧ importedNames importInfo ≠ [] ∧
    (∀ name, name ∈ importedNames importInfo → name ∉ usedIdentifiers) ∧
    f = toUnusedImport text importInfo.
Proof.
  rewrite filterUnusedImports_filter. split.
  - intros Hf. apply list_elem_of_In, in_map_iff in Hf as (i & <- & Hi).
    apply list_elem_of_In, list_elem_of_filter in Hi as [[Hne Hu] Hin].
    exists i. by rewrite <- isUsed_false.
  - intros (i & Hin & Hne & Hu & ->).
    apply list_elem_of_In, in_map, list_elem_of_In, list_elem_of_filter.
    by rewrite isUsed_false.
Qed.

(** X6. The findings come out in the order of the import list, at most one
    per import: they are a sublist of the records of all imports, so there
    are never more findings than import statements. *)
Theorem findings_keep_source_order (imports : list ImportInfo)
    (usedIdentifiers : gset string) (text : string) :
  filterUnusedImports imports usedIdentifiers text
    `sublist_of` map (toUnusedImport text) imports ∧
  List.length (filterUnusedImports imports usedIdentifiers text) ≤ List.length imports.
Proof.
  assert (Hsub : filterUnusedImports imports usedIdentifiers text
                   `sublist_of` map (toUnusedImport text) imports).
  { induction imports as [| i imports IH]; [done |].
    rewrite filterUnusedImports_cons, filterUnusedImports_single. simpl.
    destruct (List.length (importedNames i) =? 0); [by apply sublist_cons |].
    destruct (isUsed (importedNames i) usedIdentifiers);
      [by apply sublist_cons | by apply sublist_skip]. }
  split; [exact Hsub |].
  apply sublist_length in Hsub. by rewrite length_map in Hsub.
Qed.





(** ** The line of a finding *)

Lemma split_length (sep : ascii) (s : string) :
  List.length (split sep s) = S (occurrences sep s).
Proof.
  induction s as [| c rest IH]; [done |].
  simpl. destruct (Ascii.eqb c sep); simpl; [by rewrite IH |].
  destruct (split sep rest) as [| piece pieces]; [done |]. exact IH.
Qed.

Lemma occurrences_prefix_mono (c : ascii) (s : string) :
  ∀ a b, a ≤ b →
    occurrences c (substring 0 a s) ≤ occurrences c (substring 0 b s) ∧
    occurrences c (substring 0 b s) ≤ occurrences c s.
Proof.
  induction s as [| c' rest IH]; intros a b Hab.
  - destruct a, b; simpl; lia.
  - destruct b as [| b]; [assert (a = 0) as -> by lia; simpl; lia |].
    destruct a as [| a]; simpl.
    + destruct (IH 0 b) as [_ H]; [lia |]. lia.
    + destruct (IH a b) as [H1 H2]; [lia |]. lia.
Qed.

(** X8. The line recorded in a finding is one more than the number of line
    feeds among the first [start] characters of the text: it is 1 at the
    start of the text, never exceeds the number of lines of the text, and
    does not decrease when the start offset grows. *)
Theorem lineOf_counts_line_feeds (text : string) (start : nat) :
  lineOf text start = S (occurrences LF (substring 0 start text)) ∧
  lineOf text 0 = 1 ∧
  lineOf text start ≤ S (occurrences LF text) ∧
  (∀ start', start ≤ start' → lineOf text start ≤ lineOf text start').
Proof.
  unfold lineOf. rewrite !split_length. split; [done |].
  split; [by destruct text |]. split.
  - destruct (occurrences_prefix_mono LF text start start) as [_ H]; [lia |]. lia.
  - intros start' Hle. rewrite split_length.
    destruct (occurrences_prefix_mono LF text start start' Hle) as [H _]. lia.
Qed.

(** ** Further properties of the edit planner *)

Lemma insertSorted_past_all (x : UnusedImport) (l : list UnusedImport) :
  Forall (fun y => start x < start y) l →
  insertSorted byStartDescending x l = l ++ [x].
Proof.
  induction 1 as [| y l Hy _ IH]; [done |].
  simpl. unfold byStartDescending at 1.
  destruct (Z.leb_spec (Z.of_nat (start y) - Z.of_nat (start x)) 0); [lia |].
  by rewrite IH.
Qed.

Lemma sort_ascending_is_reverse (l : list UnusedImport) :
  StronglySorted (fun a b => start a < start b) l →
  sort byStartDescending l = reverse l.
Proof.
  induction 1 as [| x l _ IH Hx]; [done |].
  simpl. fold (sort byStartDescending l). rewrite IH, reverse_cons.
  apply insertSorted_past_all. by apply Forall_reverse.
Qed.

Lemma sort_descending_is_identity (l : list UnusedImport) :
  StronglySorted (fun a b => start b ≤ start a) l →
  sort byStartDescending l = l.
Proof.
  induction 1 as [| x l _ IH Hx]; [done |].
  simpl. fold (sort byStartDescending l). rewrite IH.
  destruct Hx as [| y l Hy _]; [done |].
  simpl. unfold byStartDescending.
  destruct (Z.leb_spec (Z.of_nat (start y) - Z.of_nat (start x)) 0); [done | lia].
Qed.

Lemma map_reverse {A B} (f : A → B) (l : list A) :
  map f (reverse l) = reverse (map f l).
Proof.
  induction l as [| x l IH]; [done |].
  simpl. by rewrite !reverse_cons, map_app, IH.
Qed.

(** X9. For findings in strictly ascending order of start, as the resolver
    produces them from imports in source order, the batch is planned in
    exactly the reverse order: the last import's line is deleted first. *)
Theorem removal_batch_reverses_ascending_findings (document : TextDocument)
    (unusedImports : list UnusedImport) :
  StronglySorted (fun a b => start a < start b) unusedImports →
  sort byStartDescending unusedImports = reverse unusedImports ∧
  removalEdits document unusedImports =
    reverse (map (fun unusedImport =>
                    rangeIncludingLineBreak document
                      (posLine (positionAt document (start unusedImport))))
                 unusedImports).
Proof.
  intros Hasc. pose proof (sort_ascending_is_reverse _ Hasc) as Hs.
  split; [exact Hs |].
  unfold removalEdits. by rewrite Hs, map_reverse.
Qed.

(** X10. For every list of findings the batch is planned over a permutation
    of the findings in non-increasing order of start, with one deletion per
    finding; findings that are already in non-increasing order keep their
    order, so sorting twice is the same as sorting once. *)
Theorem removal_batch_order (document : TextDocument)
    (unusedImports : list UnusedImport) :
  sort byStartDescending unusedImports ≡ₚ unusedImports ∧
  StronglySorted (fun a b => start b ≤ start a) (sort byStartDescending unusedImports) ∧
  sort byStartDescending (sort byStartDescending unusedImports)
    = sort byStartDescending unusedImports ∧
  List.length (removalEdits document unusedImports) = List.length unusedImports.
Proof.
  split; [apply sort_Permutation |].
  split; [apply sort_byStartDescending_sorted |].
  split; [apply sort_descending_is_identity, sort_byStartDescending_sorted |].
  apply removalEdits_length.
Qed.

Lemma removal_batch_reverses_ascending_findings_witness :
  let findings :=
    [ {| start := 0; end_ := 18; importName := "A"; line := 1 |};
      {| start := 18; end_ := 37; importName := "B"; line := 1 |} ] in
  StronglySorted (fun a b => start a < start b) findings ∧
  sort byStartDescending findings = reverse findings ∧
  removalEdits (sampleDocument twoImportsText) findings =
    reverse (map (fun unusedImport =>
                    rangeIncludingLineBreak (sampleDocument twoImportsText)
                      (posLine (positionAt (sampleDocument twoImportsText)
                                  (start unusedImport))))
                 findings).
Proof.
  intros findings.
  assert (H : StronglySorted (fun a b => start a < start b) findings).
  { repeat constructor. }
  split; [exact H |].
  exact (removal_batch_reverses_ascending_findings (sampleDocument twoImportsText)
           findings H).
Defined.

(** ** Further properties of the command *)

(** X11. Every run of the command shows exactly one message.  It hands at
    most one edit batch to the editor, and only for a supported document
    that parsed and has at least one finding; in every other case the
    document is left as it was. *)
Theorem command_edits_only_on_findings
    (tsCreateSourceFile : string → string → ScriptKind → Node + string)
    (activeTextEditor : option TextDocument) :
  let outcome := removeUnusedImportsHandler tsCreateSourceFile activeTextEditor in
  List.length (shown outcome) = 1 ∧
  (applied outcome = [] → documentAfter outcome = activeTextEditor) ∧
  (applied outcome ≠ [] →
   ∃ document sourceFile,
     activeTextEditor = Some document ∧
     isSupportedFile (languageId document) = true ∧
     createSourceFile tsCreateSourceFile document (getText document) = inl sourceFile ∧
     findUnusedImports sourceFile (getText document) ≠ [] ∧
     applied outcome =
       [removalEdits document (findUnusedImports sourceFile (getText document))]).
Proof.
  unfold removeUnusedImportsHandler.
  destruct activeTextEditor as [document |]; [| by split; [| split]].
  destruct (isSupportedFile (languageId document)) eqn:Hs; simpl;
    [| by split; [| split]].
  destruct (createSourceFile tsCreateSourceFile document (getText document))
    as [sourceFile | message] eqn:Hparse; [| by split; [| split]].
  destruct (findUnusedImports sourceFile (getText document)) as [| f fs] eqn:Hf;
    simpl; [by split; [| split] |].
  split; [done |]. split; [done |].
  intros _. exists document, sourceFile. by rewrite Hf.
Qed.

(** X12. When a supported document parses and has findings, the number in
    the message shown is the number of findings, and the one batch handed
    to the editor has that many deletions. *)
Theorem command_reports_number_of_deletions
    (tsCreateSourceFile : string → string → ScriptKind → Node + string)
    (document : TextDocument) (sourceFile : Node) :
  isSupportedFile (languageId document) = true →
  createSourceFile tsCreateSourceFile document (getText document) = inl sourceFile →
  findUnusedImports sourceFile (getText document) ≠ [] →
  ∃ batch,
    applied (removeUnusedImportsHandler tsCreateSourceFile (Some document)) = [batch] ∧
    List.length batch = List.length (findUnusedImports sourceFile (getText document)) ∧
    shown (removeUnusedImportsHandler tsCreateSourceFile (Some document)) =
      [showInformationMessage
         ("Removed " +:+ pretty (List.length batch) +:+ " unused import(s)")].
Proof.
  intros Hs Hparse Hne.
  exists (removalEdits document (findUnusedImports sourceFile (getText document))).
  unfold removeUnusedImportsHandler. rewrite Hs, Hparse. simpl.
  rewrite (length_eqb_0_false _ Hne). simpl.
  by rewrite removalEdits_length.
Qed.

(** X13. When the parser throws on a supported document, the command shows
    the parser's message behind the prefix "Error processing file: ",
    hands no edit to the editor and leaves the document as it was. *)
Theorem parser_exception_is_reported
    (tsCreateSourceFile : string → string → ScriptKind → Node + string)
    (document : TextDocument) (message : string) :
  isSupportedFile (languageId document) = true →
  createSourceFile tsCreateSourceFile document (getText document) = inr message →
  removeUnusedImportsHandler tsCreateSourceFile (Some document) =
    {| shown := [showErrorMessage ("Error processing file: " +:+ message)];
       applied := [];
       documentAfter := Some document |}.
Proof.
  intros Hs Hparse. unfold removeUnusedImportsHandler. by rewrite Hs, Hparse.
Qed.

(** X14. Each supported language gets its own script kind: the typed kinds
    exactly for the two TypeScript languages and the markup kinds exactly
    for the two React languages. *)
Theorem supported_language_script_kind (languageId : string) :
  isSupportedFile languageId = true →
  getScriptKind languageId =
    (if decide (languageId = "javascript") then JS
     else if decide (languageId = "typescript") then TS
     else if decide (languageId = "javascriptreact") then JSX
     else TSX).
Proof.
  unfold isSupportedFile. intros Hs%bool_decide_eq_true.
  repeat (apply elem_of_cons in Hs as [-> | Hs]; [reflexivity |]).
  by apply elem_of_nil in Hs.
Qed.

Lemma command_reports_number_of_deletions_witness :
  let document := sampleDocument twoImportsText in
  isSupportedFile (languageId document) = true ∧
  createSourceFile sampleParser document (getText document) = inl twoImportsTree ∧
  findUnusedImports twoImportsTree (getText document) ≠ [] ∧
  ∃ batch,
    applied (removeUnusedImportsHandler sampleParser (Some document)) = [batch] ∧
    List.length batch = List.length (findUnusedImports twoImportsTree (getText document)) ∧
    shown (removeUnusedImportsHandler sampleParser (Some document)) =
      [showInformationMessage
         ("Removed " +:+ pretty (List.length batch) +:+ " unused import(s)")].
Proof.
  intros document.
  split; [reflexivity |]. split; [reflexivity |].
  split; [vm_compute; discriminate |].
  apply (command_reports_number_of_deletions sampleParser document twoImportsTree);
    [reflexivity | reflexivity | vm_compute; discriminate].
Defined.

Lemma parser_exception_is_reported_witness :
  let document := sampleDocument "import" in
  isSupportedFile (languageId document) = true ∧
  createSourceFile sampleParser document (getText document) = inr "not a sample text" ∧
  removeUnusedImportsHandler sampleParser (Some document) =
    {| shown := [showErrorMessage ("Error processing file: " +:+ "not a sample text")];
       applied := [];
       documentAfter := Some document |}.
Proof.
  intros document.
  split; [reflexivity |]. split; [reflexivity |].
  apply (parser_exception_is_reported sampleParser document "not a sample text");
    reflexivity.
Defined.

Lemma supported_language_script_kind_witness :
  isSupportedFile "typescriptreact" = true ∧
  getScriptKind "typescriptreact" = TSX.
Proof.
  split; [reflexivity |].
  apply (supported_language_script_kind "typescriptreact"). reflexivity.
Defined.

(** ** What a removal does to the text *)

Lemma append_cons (x : ascii) (a b : string) :
  String x a +:+ b = String x (a +:+ b).
Proof. reflexivity. Qed.

Lemma append_assoc (a b c : string) : (a +:+ b) +:+ c = a +:+ b +:+ c.
Proof.
  induction a as [| x a IH]; [done |]. by rewrite !append_cons, IH.
Qed.

Lemma append_length (a b : string) :
  String.length (a +:+ b) = String.length a + String.length b.
Proof.
  induction a as [| x a IH]; [done |]. rewrite append_cons. simpl. by rewrite IH.
Qed.

Lemma append_empty_r (a : string) : a +:+ EmptyString = a.
Proof.
  induction a as [| x a IH]; [done |]. by rewrite append_cons, IH.
Qed.

Lemma substring_all (s : string) : substring 0 (String.length s) s = s.
Proof. induction s as [| x s IH]; [done |]. simpl. by rewrite IH. Qed.

Lemma substring_prefix (a b : string) : substring 0 (String.length a) (a +:+ b) = a.
Proof.
  induction a as [| x a IH]; [by destruct b |].
  rewrite append_cons. simpl. by rewrite IH.
Qed.

Lemma substring_suffix (a b : string) (m : nat) :
  substring (String.length a) m (a +:+ b) = substring 0 m b.
Proof.
  induction a as [| x a IH]; [done |]. rewrite append_cons. simpl. exact IH.
Qed.

Lemma deleteOffsets_middle (P X R : string) :
  deleteOffsets (P +:+ X +:+ R) (String.length P) (String.length P + String.length X)
  = P +:+ R.
Proof.
  unfold deleteOffsets. rewrite substring_prefix. f_equal.
  rewrite <- append_assoc, <- append_length.
  rewrite substring_suffix, append_length.
  replace (String.length (P +:+ X) + String.length R - String.length (P +:+ X))
    with (String.length R) by lia.
  apply substring_all.
Qed.

Lemma split_nonempty (sep : ascii) (s : string) : split sep s ≠ [].
Proof.
  intros H. apply (f_equal List.length) in H. rewrite split_length in H. done.
Qed.

Lemma concat_newline_cons (x : string) (rest : list string) :
  rest ≠ [] →
  String.concat newline (x :: rest) = x +:+ newline +:+ String.concat newline rest.
Proof. by destruct rest. Qed.

(** Joining the pieces of a text with line feeds gives the text back. *)
Lemma concat_split (text : string) : String.concat newline (split LF text) = text.
Proof.
  induction text as [| c rest IH]; [done |].
  simpl. destruct (Ascii.eqb c LF) eqn:Hc.
  - apply Ascii.eqb_eq in Hc as ->.
    rewrite concat_newline_cons by apply split_nonempty. by rewrite IH.
  - destruct (split LF rest) as [| piece pieces] eqn:Hs;
      [by destruct (split_nonempty LF rest) |].
    rewrite <- IH. destruct pieces; [done |].
    rewrite !concat_newline_cons by done. by rewrite append_cons.
Qed.

Lemma concat_newline_app (pre post : list string) :
  post ≠ [] →
  String.concat newline (pre ++ post) = prefixText pre +:+ String.concat newline post.
Proof.
  intros Hpost. induction pre as [| p pre IH]; [done |].
  rewrite <- app_comm_cons, concat_newline_cons.
  - rewrite IH. cbn [prefixText]. by rewrite !append_assoc.
  - destruct pre; [done | by destruct post].
Qed.

Lemma concat_newline_snoc (pre : list string) (x : string) :
  String.concat newline (pre ++ [x]) = prefixText pre +:+ x.
Proof. by rewrite concat_newline_app. Qed.

Lemma prefixText_length (pieces : list string) :
  String.length (prefixText pieces) =
  list_sum (map (fun piece => S (String.length piece)) pieces).
Proof.
  induction pieces as [| p pieces IH]; [done |].
  cbn [prefixText]. rewrite !append_length, IH.
  change (String.length newline) with 1. simpl. lia.
Qed.

Lemma prefixText_snoc (pieces : list string) (x : string) :
  prefixText (pieces ++ [x]) = prefixText pieces +:+ x +:+ newline.
Proof.
  induction pieces as [| p pieces IH]; cbn [prefixText app];
    [by rewrite append_empty_r |].
  by rewrite IH, !append_assoc.
Qed.

Lemma offsetAt_line_start (document : TextDocument) (l : nat) :
  offsetAt document {| posLine := l; character := 0 |} =
  String.length (prefixText (take l (split LF (getText document)))).
Proof. unfold offsetAt. simpl. rewrite prefixText_length. lia. Qed.

(** Deleting the range of line [l] of the document from a text whose first
    [l + 1] lines are those of the document removes line [l] of that text. *)
Lemma delete_line_by_document_offsets (document : TextDocument) (l : nat)
    (cur : list string) :
  take (S l) cur = take (S l) (split LF (getText document)) →
  S l < List.length cur →
  deleteOffsets (String.concat newline cur)
    (offsetAt document {| posLine := l; character := 0 |})
    (offsetAt document {| posLine := S l; character := 0 |})
  = String.concat newline (delete l cur).
Proof.
  intros Htake Hlen.
  destruct (lookup_lt_is_Some_2 cur l) as [x Hx]; [lia |].
  assert (Htl : take l (split LF (getText document)) = take l cur).
  { apply (f_equal (take l)) in Htake. rewrite !take_take in Htake.
    by replace (l `min` S l) with l in Htake by lia. }
  assert (Hdrop : drop (S l) cur ≠ []).
  { intros Hd. apply (f_equal List.length) in Hd. rewrite length_drop in Hd.
    simpl in Hd. lia. }
  assert (Htext : String.concat newline cur =
                  prefixText (take l cur) +:+ (x +:+ newline)
                  +:+ String.concat newline (drop (S l) cur)).
  { rewrite <- (take_drop_middle cur l x Hx) at 1.
    rewrite concat_newline_app by done.
    rewrite concat_newline_cons by done. by rewrite append_assoc. }
  rewrite !offsetAt_line_start, <- Htake, Htl.
  rewrite (take_S_r cur l x Hx), prefixText_snoc.
  rewrite append_length, Htext, deleteOffsets_middle.
  by rewrite delete_take_drop, concat_newline_app.
Qed.

Lemma rangeIncludingLineBreak_inner (document : TextDocument) (l : nat) :
  S l < lineCount document →
  rangeIncludingLineBreak document l =
  {| rangeStart := {| posLine := l; character := 0 |};
     rangeEnd := {| posLine := S l; character := 0 |} |}.
Proof.
  intros Hl. unfold rangeIncludingLineBreak.
  by rewrite (proj2 (Nat.ltb_lt _ _) Hl).
Qed.

Lemma take_delete_above {A} (cur : list A) (l l1 : nat) :
  S l ≤ l1 → l1 < List.length cur →
  take (S l) (delete l1 cur) = take (S l) cur.
Proof.
  intros Hl Hl1. rewrite delete_take_drop.
  rewrite take_app_le by (rewrite length_take; lia).
  rewrite take_take. f_equal. lia.
Qed.

(** Deleting the ranges of strictly descending lines one after the other,
    each resolved in the document the batch was planned on, removes those
    lines: no deletion shifts the lines a later deletion refers to. *)
Lemma applyEdit_descending_lines (document : TextDocument) (ls : list nat) :
  StronglySorted (fun a b => b < a) ls →
  Forall (fun l => S l < lineCount document) ls →
  ∀ cur,
    Forall (fun l => take (S l) cur = take (S l) (split LF (getText document)) ∧
                     S l < List.length cur) ls →
    fold_left
      (fun text range =>
         deleteOffsets text (offsetAt document (rangeStart range))
                            (offsetAt document (rangeEnd range)))
      (map (rangeIncludingLineBreak document) ls) (String.concat newline cur)
    = String.concat newline (fold_left (fun c l => delete l c) ls cur).
Proof.
  induction 1 as [| l1 ls _ IH Hbelow]; intros Hin cur Hcur; [done |].
  apply Forall_cons in Hin as [Hl1 Hin].
  apply Forall_cons in Hcur as [[Htake Hlen] Hcur].
  cbn [map fold_left]. rewrite (rangeIncludingLineBreak_inner document l1 Hl1).
  cbn [rangeStart rangeEnd].
  rewrite (delete_line_by_document_offsets document l1 cur Htake Hlen).
  apply IH; [exact Hin |].
  rewrite Forall_forall in Hbelow, Hcur |- *. intros l Hl.
  specialize (Hbelow l Hl). destruct (Hcur l Hl) as [Htl Hll].
  split.
  - rewrite take_delete_above by lia. exact Htl.
  - rewrite length_delete by (apply lookup_lt_is_Some_2; lia). lia.
Qed.

Lemma posLine_positionAt (document : TextDocument) (offset : nat) :
  posLine (positionAt document offset) =
  occurrences LF (substring 0 offset (getText document)).
Proof. unfold positionAt. simpl. rewrite split_length. lia. Qed.


Lemma startLines_descending (document : TextDocument)
    (unusedImports : list UnusedImport) :
  StronglySorted (fun a b => b ≤ a) (startLines document unusedImports).
Proof.
  unfold startLines.
  induction (sort_byStartDescending_sorted unusedImports) as [| x l _ IH Hx];
    [constructor |].
  cbn [map]. constructor; [exact IH |].
  apply Forall_forall. intros n Hn.
  apply list_elem_of_In, in_map_iff in Hn as (y & <- & Hy%list_elem_of_In).
  rewrite Forall_forall in Hx. specialize (Hx y Hy).
  rewrite !posLine_positionAt.
  by destruct (occurrences_prefix_mono LF (getText document) (start y) (start x) Hx).
Qed.

Lemma descending_NoDup_strict (ls : list nat) :
  StronglySorted (fun a b => b ≤ a) ls → NoDup ls →
  StronglySorted (fun a b => b < a) ls.
Proof.
  induction 1 as [| a ls _ IH Ha]; intros Hnd; [constructor |].
  apply NoDup_cons in Hnd as [Hnotin Hnd].
  constructor; [by apply IH |].
  rewrite Forall_forall in Ha |- *. intros b Hb.
  specialize (Ha b Hb). assert (b ≠ a) by (by intros ->). lia.
Qed.

(** X15. When the findings start on pairwise distinct lines, none of them
    the last line of the document, the text after the removal is the
    document's lines without the lines the findings start on, deleted one
    by one from the highest line down; every other line is kept as it is.
    For one finding this is the document without the line of its start. *)
Theorem removal_deletes_the_start_lines (document : TextDocument)
    (unusedImports : list UnusedImport) :
  NoDup (startLines document unusedImports) →
  Forall (fun l => S l < lineCount document) (startLines document unusedImports) →
  getText (applyRemovalEdits document unusedImports) =
    String.concat newline
      (fold_left (fun cur l => delete l cur)
                 (startLines document unusedImports)
                 (split LF (getText document))).
Proof.
  intros Hnd Hin.
  unfold applyRemovalEdits, applyEdit, removalEdits. cbn [getText].
  rewrite <- (concat_split (getText document)) at 1.
  change (map _ (sort byStartDescending unusedImports))
    with (map (fun unusedImport =>
                 rangeIncludingLineBreak document
                   ((fun u => posLine (positionAt document (start u))) unusedImport))
              (sort byStartDescending unusedImports)).
  rewrite <- (map_map (fun u => posLine (positionAt document (start u)))
                      (rangeIncludingLineBreak document)).
  fold (startLines document unusedImports).
  apply applyEdit_descending_lines; [| exact Hin |].
  - apply descending_NoDup_strict; [apply startLines_descending | exact Hnd].
  - eapply Forall_impl; [exact Hin |]. by intros l Hl.
Qed.

(** X16. A finding that starts on the last line of the document only
    empties that line: the line feed before it stays, and every other line
    is kept as it is. *)
Theorem removal_on_last_line_empties_it (document : TextDocument)
    (unusedImport : UnusedImport) :
  S (posLine (positionAt document (start unusedImport))) = lineCount document →
  getText (applyRemovalEdits document [unusedImport]) =
    String.concat newline
      (<[posLine (positionAt document (start unusedImport)) := EmptyString]>
         (split LF (getText document))).
Proof.
  intros Hlast.
  set (l := posLine (positionAt document (start unusedImport))) in *.
  unfold applyRemovalEdits, applyEdit, removalEdits. cbn [getText sort foldr].
  cbn [insertSorted map fold_left]. fold l.
  unfold rangeIncludingLineBreak. rewrite (proj2 (Nat.ltb_ge _ _)) by lia.
  cbn [rangeStart rangeEnd]. unfold lineCount in Hlast.
  destruct (lookup_lt_is_Some_2 (split LF (getText document)) l) as [x Hx]; [lia |].
  assert (Hlines : split LF (getText document) =
                   take l (split LF (getText document)) ++ [x]).
  { rewrite <- (take_drop_middle _ l x Hx) at 1. f_equal.
    rewrite drop_ge by lia. done. }
  assert (Hnth : lineText document l = x).
  { unfold lineText. by apply nth_lookup_Some. }
  rewrite offsetAt_line_start. unfold offsetAt. cbn [posLine character].
  rewrite Hnth, Nat.min_id, <- prefixText_length.
  rewrite insert_take_drop by lia. rewrite drop_ge by lia.
  rewrite concat_newline_snoc, append_empty_r.
  rewrite <- (concat_split (getText document)) at 1.
  rewrite Hlines at 1. rewrite concat_newline_snoc.
  rewrite <- (append_empty_r x) at 1.
  rewrite deleteOffsets_middle. apply append_empty_r.
Qed.

Lemma sublist_StronglySorted {A} (R : A → A → Prop) (l1 l2 : list A) :
  l1 `sublist_of` l2 → StronglySorted R l2 → StronglySorted R l1.
Proof.
  induction 1 as [| x l1 l2 Hsub IH | x l1 l2 Hsub IH]; intros Hs; [done | |].
  - apply StronglySorted_inv in Hs as [Hs Hx].
    constructor; [by apply IH |].
    rewrite Forall_forall in Hx |- *. intros y Hy. apply Hx.
    by apply (elem_of_sublist l1 l2).
  - apply StronglySorted_inv in Hs as [Hs _]. by apply IH.
Qed.

Lemma StronglySorted_map {A B} (R : B → B → Prop) (f : A → B) (l : list A) :
  StronglySorted R (map f l) ↔ StronglySorted (fun a b => R (f a) (f b)) l.
Proof.
  induction l as [| x l IH]; simpl.
  - split; constructor.
  - split; intros [Hs Hx]%StronglySorted_inv; constructor; try (by apply IH).
    + rewrite Forall_forall in Hx. rewrite Forall_forall. intros y Hy. apply Hx.
      by apply list_elem_of_In, in_map, list_elem_of_In.
    + rewrite Forall_forall in Hx. rewrite Forall_forall. intros y Hy.
      apply list_elem_of_In, in_map_iff in Hy as (z & <- & Hz%list_elem_of_In).
      by apply Hx.
Qed.

(** X17. When the import records are in strictly ascending order of start,
    so are the findings, and the batch deletes their lines in the reverse
    of that order. *)
Theorem findings_of_ascending_imports_are_ascending (document : TextDocument)
    (imports : list ImportInfo) (usedIdentifiers : gset string) (text : string) :
  StronglySorted (fun a b => infoStart a < infoStart b) imports →
  StronglySorted (fun a b => start a < start b)
    (filterUnusedImports imports usedIdentifiers text) ∧
  removalEdits document (filterUnusedImports imports usedIdentifiers text) =
    reverse (map (fun unusedImport =>
                    rangeIncludingLineBreak document
                      (posLine (positionAt document (start unusedImport))))
                 (filterUnusedImports imports usedIdentifiers text)).
Proof.
  intros Hasc.
  assert (Hf : StronglySorted (fun a b => start a < start b)
                 (filterUnusedImports imports usedIdentifiers text)).
  { rewrite filterUnusedImports_filter.
    apply (StronglySorted_map (fun a b => start a < start b)). simpl.
    eapply sublist_StronglySorted; [apply sublist_filter | exact Hasc]. }
  split; [exact Hf |].
  unfold removalEdits. by rewrite (sort_ascending_is_reverse _ Hf), map_reverse.
Qed.


Lemma removal_deletes_the_start_lines_witness :
  let document := sampleDocument twoImportsText in
  let findings :=
    [ {| start := 0; end_ := 18; importName := "A"; line := 1 |};
      {| start := 19; end_ := 37; importName := "B"; line := 2 |} ] in
  NoDup (startLines document findings) ∧
  Forall (fun l => S l < lineCount document) (startLines document findings) ∧
  getText (applyRemovalEdits document findings) =
    String.concat newline
      (fold_left (fun cur l => delete l cur) (startLines document findings)
                 (split LF (getText document))).
Proof.
  intros document findings.
  assert (H1 : NoDup (startLines document findings)).
  { change (startLines document findings) with [1; 0].
    apply (bool_decide_unpack _). vm_compute. exact I. }
  assert (H2 : Forall (fun l => S l < lineCount document)
                 (startLines document findings)).
  { change (startLines document findings) with [1; 0].
    change (lineCount document) with 4. repeat constructor. }
  split; [exact H1 |]. split; [exact H2 |].
  exact (removal_deletes_the_start_lines document findings H1 H2).
Defined.

Lemma removal_on_last_line_empties_it_witness :
  let document := sampleDocument "import A from 'a';" in
  let finding := {| start := 0; end_ := 18; importName := "A"; line := 1 |} in
  S (posLine (positionAt document (start finding))) = lineCount document ∧
  getText (applyRemovalEdits document [finding]) =
    String.concat newline
      (<[posLine (positionAt document (start finding)) := EmptyString]>
         (split LF (getText document))).
Proof.
  intros document finding.
  split; [reflexivity |].
  apply (removal_on_last_line_empties_it document finding). reflexivity.
Defined.

Lemma findings_of_ascending_imports_are_ascending_witness :
  StronglySorted (fun a b => infoStart a < infoStart b) scenarioImports ∧
  StronglySorted (fun a b => start a < start b)
    (filterUnusedImports scenarioImports scenarioUsed scenarioText) ∧
  removalEdits (sampleDocument scenarioText)
    (filterUnusedImports scenarioImports scenarioUsed scenarioText) =
    reverse (map (fun unusedImport =>
                    rangeIncludingLineBreak (sampleDocument scenarioText)
                      (posLine (positionAt (sampleDocument scenarioText)
                                  (start unusedImport))))
                 (filterUnusedImports scenarioImports scenarioUsed scenarioText)).
Proof.
  assert (H : StronglySorted (fun a b => infoStart a < infoStart b) scenarioImports).
  { repeat constructor; simpl; lia. }
  split; [exact H |].
  exact (findings_of_ascending_imports_are_ascending (sampleDocument scenarioText)
           scenarioImports scenarioUsed scenarioText H).
Defined.


(** ** The file without its flagged imports *)

Lemma collectUsedIdentifiers_import (s : Node) :
  isImportDeclaration s = true → collectUsedIdentifiers s = ∅.
Proof. by destruct s. Qed.

Lemma collectImports_import (s : Node) :
  isImportDeclaration s = true → collectImports s = [importInfoOf s].
Proof. by destruct s. Qed.

Lemma usage_without_some_imports (keep : Node → bool) (statements : list Node) :
  (∀ s, keep s = false → isImportDeclaration s = true) →
  ⋃ (map collectUsedIdentifiers (List.filter keep statements)) =
  (⋃ (map collectUsedIdentifiers statements) : gset string).
Proof.
  intros Hdrop. induction statements as [| s statements IH]; [done |].
  cbn [List.filter]. destruct (keep s) eqn:Hk; cbn [map];
    rewrite ?union_list_cons, IH.
  - done.
  - rewrite (collectUsedIdentifiers_import s (Hdrop s Hk)).
    by rewrite (left_id_L ∅ (∪)).
Qed.

(** X19. Taking the flagged import declarations out of the statement list
    of a file leaves its usage set unchanged, and the file that remains has
    no finding, provided the statements that are not imports hold no import
    declaration inside. *)
Theorem removing_flagged_imports_leaves_no_finding (kind : string)
    (statements : list Node) (text : string) :
  Forall (fun s => isImportDeclaration s = false → collectImports s = []) statements →
  collectUsedIdentifiers
    (SyntaxNode kind
       (List.filter
          (fun s => negb (flaggedStatement
                            (collectUsedIdentifiers (SyntaxNode kind statements)) s))
          statements))
  = collectUsedIdentifiers (SyntaxNode kind statements) ∧
  findUnusedImports
    (SyntaxNode kind
       (List.filter
          (fun s => negb (flaggedStatement
                            (collectUsedIdentifiers (SyntaxNode kind statements)) s))
          statements))
    text
  = [].
Proof.
  intros Hflat.
  set (U := collectUsedIdentifiers (SyntaxNode kind statements)).
  set (remaining := List.filter (fun s => negb (flaggedStatement U s)) statements).
  assert (HU : collectUsedIdentifiers (SyntaxNode kind remaining) = U).
  { unfold U, remaining, collectUsedIdentifiers. cbn [visitNode].
    rewrite !visitNode_children_union. f_equal.
    apply usage_without_some_imports. intros s Hs.
    apply negb_false_iff in Hs. unfold flaggedStatement in Hs.
    by apply andb_true_iff in Hs as [[Hi _]%andb_true_iff _]. }
  split; [exact HU |].
  unfold findUnusedImports. rewrite HU.
  apply elem_of_nil_inv. intros f Hf.
  apply finding_iff_unused_import_aux in Hf as (i & Hi & Hne & Hunused).
  unfold collectImports in Hi. cbn [visitImports] in Hi.
  rewrite visitImports_children in Hi. simpl in Hi.
  apply list_elem_of_In, in_flat_map in Hi as (s & Hs & Hi%list_elem_of_In).
  unfold remaining in Hs. apply filter_In in Hs as [Hs Hkeep].
  apply negb_true_iff in Hkeep.
  destruct (isImportDeclaration s) eqn:Himp.
  - rewrite (collectImports_import s Himp) in Hi.
    apply list_elem_of_singleton in Hi as ->.
    unfold flaggedStatement in Hkeep. rewrite Himp in Hkeep. simpl in Hkeep.
    rewrite (length_eqb_0_false _ Hne) in Hkeep. simpl in Hkeep.
    apply negb_false_iff in Hkeep. apply isUsed_false in Hunused. congruence.
  - rewrite Forall_forall in Hflat.
    rewrite (Hflat s (proj2 (list_elem_of_In _ _) Hs) Himp) in Hi.
    by apply elem_of_nil in Hi.
Qed.

Lemma removing_flagged_imports_leaves_no_finding_witness :
  let statements :=
    [ ImportDeclaration 0 18 (defaultImport "A") "a";
      ImportDeclaration 18 37 (defaultImport "B") "b";
      SyntaxNode "ExpressionStatement" [Identifier "A"];
      SyntaxNode "EndOfFileToken" [] ] in
  Forall (fun s => isImportDeclaration s = false → collectImports s = []) statements ∧
  collectUsedIdentifiers
    (SyntaxNode "SourceFile"
       (List.filter
          (fun s => negb (flaggedStatement
                            (collectUsedIdentifiers (SyntaxNode "SourceFile" statements)) s))
          statements))
  = collectUsedIdentifiers (SyntaxNode "SourceFile" statements) ∧
  findUnusedImports
    (SyntaxNode "SourceFile"
       (List.filter
          (fun s => negb (flaggedStatement
                            (collectUsedIdentifiers (SyntaxNode "SourceFile" statements)) s))
          statements))
    afterFirstRunText
  = [].
Proof.
  intros statements.
  assert (H : Forall (fun s => isImportDeclaration s = false → collectImports s = [])
                statements).
  { repeat (constructor; [intros H; first [reflexivity | discriminate H] |]).
    constructor. }
  split; [exact H |].
  exact (removing_flagged_imports_leaves_no_finding "SourceFile" statements
           afterFirstRunText H).
Defined.
